(** * citationhunt: scripts/parse_live.py

    A shallow embedding of the live parser of CitationHunt: the anchor
    encoder, the fetch generator, the per-batch worker with its exception
    budget, the batching of page ids and the shutdown sequence of the pool.

    Python 2 strings are sequences of integers here: a [unicode] object is
    the list of its code points, a [str] object the list of its bytes.
    Python integers are [Z]; list positions and lengths are [nat]. *)

From Stdlib Require Import ZArith Lia String Ascii.
From stdpp Require Import base list gmap sets.

Local Open Scope Z_scope.

(** ** Strings *)

Module Str.

(** A [unicode] object (code points) or a [str] object (bytes). *)
Definition ustring := list Z.

(** A literal of the source, as the list of its character codes. *)
Definition lit (s : string) : ustring :=
  map (fun c => Z.of_N (N_of_ascii c)) (list_ascii_of_string s).

(** [prefix_b p s]: [s.startswith(p)]. *)
Fixpoint prefix_b (p s : ustring) : bool :=
  match p, s with
  | [], _ => true
  | _ :: _, [] => false
  | a :: p', b :: s' => (a =? b) && prefix_b p' s'
  end.

(** The scan of [s.replace(old, new)] for a non-empty [old]: occurrences
    are found from the left and do not overlap. [skip] counts the
    characters of the current occurrence that are still to be passed. *)
Fixpoint replace_go (old new : ustring) (skip : nat) (s : ustring) : ustring :=
  match s with
  | [] => []
  | c :: s' =>
      match skip with
      | S k => replace_go old new k s'
      | O =>
          if prefix_b old s
          then new ++ replace_go old new (Nat.pred (length old)) s'
          else c :: replace_go old new O s'
      end
  end.

(** [s.replace(old, new)]. With an empty [old], Python puts [new] before
    every character and at the end. *)
Definition replace (old new s : ustring) : ustring :=
  match old with
  | [] => new ++ flat_map (fun c => c :: new) s
  | _ :: _ => replace_go old new O s
  end.

(** Modelled from the spec: utils.e, which is not part of this file; the
    anchor encoder works "after encoding the string as UTF-8 bytes". One
    code point gives one to four bytes. *)
Definition utf8_char (c : Z) : list Z :=
  if c <? 128 then [c]
  else if c <? 2048 then
    [Z.lor 192 (Z.shiftr c 6); Z.lor 128 (Z.land c 63)]
  else if c <? 65536 then
    [Z.lor 224 (Z.shiftr c 12);
     Z.lor 128 (Z.land (Z.shiftr c 6) 63);
     Z.lor 128 (Z.land c 63)]
  else
    [Z.lor 240 (Z.shiftr c 18);
     Z.lor 128 (Z.land (Z.shiftr c 12) 63);
     Z.lor 128 (Z.land (Z.shiftr c 6) 63);
     Z.lor 128 (Z.land c 63)].

Definition e (s : ustring) : ustring := flat_map utf8_char s.

(** Modelled from the spec: utils.d, the decoding of what the remote API
    returns; the values of the model are code points already. *)
Definition d (s : ustring) : ustring := s.

(** The code points of Unicode. *)
Definition code_point (c : Z) : Prop := 0 <= c < 1114112.
Definition is_byte (b : Z) : Prop := 0 <= b < 256.

(** *** urllib.quote (Python 2.7) *)

(** [always_safe]: the letters, the digits and [_.-]. *)
Definition always_safe (b : Z) : bool :=
  ((65 <=? b) && (b <=? 90)) || ((97 <=? b) && (b <=? 122))
  || ((48 <=? b) && (b <=? 57))
  || (b =? 95) || (b =? 46) || (b =? 45).

Definition mem_b (b : Z) (l : ustring) : bool := existsb (Z.eqb b) l.

(** One digit of ['{:02X}'.format(i)]. *)
Definition hex_digit (n : Z) : Z := if n <? 10 then 48 + n else 55 + n.

(** [_safe_map[c]], after [safe_map.update([(c, c) for c in safe])]. *)
Definition quoter (safe : ustring) (b : Z) : ustring :=
  if mem_b b safe || ((b <? 128) && always_safe b) then [b]
  else [37; hex_digit (b / 16); hex_digit (b mod 16)].

(** [urllib.quote(s, safe)]: [''.join(map(quoter, s))]. The two early
    returns of the library (empty [s], nothing to quote) give the same
    value. *)
Definition quote (s safe : ustring) : ustring := flat_map (quoter safe) s.

End Str.

Import Str.

(** ** The anchor encoder *)

(** [section_name_to_anchor(section)]. *)
Definition section_name_to_anchor (section : ustring) : ustring :=
  let section := replace (lit " ") (lit "_") section in
  let section := quote (e section) (e (lit "")) in
  let section := replace (lit "%3A") (lit ":") section in
  let section := replace (lit "%") (lit ".") section in
  section.

(** ** Values that cross the boundary of the file *)

(** The exceptions that the embedding tells apart. *)
Inductive exn : Type :=
  | KeyError          (* a missing key of a dict *)
  | IndexError        (* [l[0]] on an empty list *)
  | APIError          (* raised by the request to the remote API *)
  | ParserError       (* raised by [extract_snippets] *)
  | IntegrityError.   (* a duplicate primary key *)

Inductive result (A : Type) : Type :=
  | Ok (a : A)
  | Raise (x : exn).
Arguments Ok {A} a.
Arguments Raise {A} x.

Definition is_raise {A} (r : result A) : bool :=
  match r with Raise _ => true | Ok _ => false end.

(** What a generator gives when it is run to its end: the values it
    yields, then either its normal end or the exception that stops it. *)
Inductive gen (A : Type) : Type :=
  | Stop
  | Yield (a : A) (rest : gen A)
  | Throw (x : exn).
Arguments Stop {A}.
Arguments Yield {A} a rest.
Arguments Throw {A} x.

Fixpoint yielded {A} (g : gen A) : list A :=
  match g with
  | Yield a rest => a :: yielded rest
  | Stop | Throw _ => []
  end.

Fixpoint thrown {A} (g : gen A) : option exn :=
  match g with
  | Yield _ rest => thrown rest
  | Stop => None
  | Throw x => Some x
  end.

(** [g1] followed by [g2], as two loops one after the other; an exception
    of [g1] ends both. *)
Fixpoint gen_app {A} (g1 g2 : gen A) : gen A :=
  match g1 with
  | Stop => g2
  | Yield a rest => Yield a (gen_app rest g2)
  | Throw x => Throw x
  end.

(** One entry of [page['revisions']]: the wikitext is under the key ['*']. *)
Record revision : Type := { star : option ustring }.

(** One value of [response['query']['pages']]. *)
Record page : Type := {
  title : option ustring;
  revisions : option (list revision)
}.

(** The items of the dict of pages of one response. *)
Definition entries : Type := list (ustring * page).

(** The dict under ['query'] of a response: ['pages'] may be missing. *)
Record query_dict : Type := { pages_of : option entries }.

(** One response of [request.queryGen()]: ['query'] may be missing. *)
Record response : Type := { query_of : option query_dict }.

(** [response['query']['pages'].items()]: a missing key raises. *)
Definition response_items (r : response) : result entries :=
  match query_of r with
  | None => Raise KeyError
  | Some q =>
      match pages_of q with
      | None => Raise KeyError
      | Some items => Ok items
      end
  end.

(** The response that has these pages. *)
Definition answer (items : entries) : response :=
  {| query_of := Some {| pages_of := Some items |} |}.

(** The entries of a response that has its pages, none otherwise. *)
Definition response_entries (r : response) : entries :=
  match response_items r with
  | Ok items => items
  | Raise _ => []
  end.

(** [page['revisions'][0]['*']]. *)
Definition page_text (p : page) : result ustring :=
  match revisions p with
  | None => Raise KeyError
  | Some [] => Raise IndexError
  | Some (r :: _) =>
      match star r with
      | None => Raise KeyError
      | Some text => Ok text
      end
  end.

(** ** The fetch client *)

(** The inner loop of [query_pageids], over the pages of one response;
    [later] is what the generator does after this response. *)
Fixpoint query_pages (pages : entries) (later : gen (ustring * ustring * ustring))
  : gen (ustring * ustring * ustring) :=
  match pages with
  | [] => later
  | (id, page) :: pages' =>
      match title page with
      | None => query_pages pages' later
      | Some t =>
          let title := d t in
          match page_text page with
          | Raise x => Throw x
          | Ok text =>
              match text with
              | [] => query_pages pages' later
              | _ :: _ => Yield (id, title, d text) (query_pages pages' later)
              end
          end
      end
  end.

(** The outer loop of [query_pageids], over [request.queryGen()]. *)
Fixpoint query_responses (responses : gen response)
  : gen (ustring * ustring * ustring) :=
  match responses with
  | Stop => Stop
  | Throw x => Throw x
  | Yield response rest =>
      match response_items response with
      | Raise x => Throw x
      | Ok pages => query_pages pages (query_responses rest)
      end
  end.

(** [sep.join(l)]. *)
Fixpoint join (sep : ustring) (l : list ustring) : ustring :=
  match l with
  | [] => []
  | [a] => a
  | a :: l' => a ++ sep ++ join sep l'
  end.

(** ** The scratch database *)

Module Db.

(** A row of [articles]: (pageid, url, title). *)
Definition article_row : Type := ustring * ustring * ustring.
(** A row of [snippets]: (id, snippet, section, pageid). *)
Definition snippet_row : Type := ustring * ustring * ustring * ustring.

Definition article_key (r : article_row) : ustring := r.1.1.
Definition snippet_key (r : snippet_row) : ustring := r.1.1.1.
Definition snippet_text (r : snippet_row) : ustring := r.1.1.2.
Definition snippet_section (r : snippet_row) : ustring := r.1.2.
Definition snippet_pageid (r : snippet_row) : ustring := r.2.

(** The two tables, each indexed by its primary key. *)
Record t : Type := {
  articles : gmap ustring article_row;
  snippets : gmap ustring snippet_row
}.

Definition empty : t := {| articles := ∅; snippets := ∅ |}.

(** [INSERT INTO articles VALUES(%s, %s, %s)]. *)
Definition insert_article (r : article_row) (db : t) : result t :=
  match articles db !! article_key r with
  | Some _ => Raise IntegrityError
  | None =>
      Ok {| articles := <[article_key r := r]> (articles db);
            snippets := snippets db |}
  end.

(** One row of [INSERT IGNORE INTO snippets VALUES(%s, %s, %s, %s)]. *)
Definition insert_ignore_snippet (db : t) (r : snippet_row) : t :=
  match snippets db !! snippet_key r with
  | Some _ => db
  | None =>
      {| articles := articles db;
         snippets := <[snippet_key r := r]> (snippets db) |}
  end.

(** The statements that [insert] sends to its cursor. *)
Inductive stmt : Type :=
  | InsertArticle (r : article_row)
  | InsertIgnoreSnippets (rs : list snippet_row).

Definition run (s : stmt) (db : t) : result t :=
  match s with
  | InsertArticle r => insert_article r db
  | InsertIgnoreSnippets rs => Ok (foldl insert_ignore_snippet db rs)
  end.

End Db.

(** ** The state of one worker process *)

(** What a process does that is visible outside the interpreter. *)
Inductive event : Type :=
  | Fetched (pageid : ustring)   (* the fetch generator hands over a page *)
  | Extract (wikitext : ustring) (* [self.parser.extract_snippets] is called *)
  | Execute (s : Db.stmt)        (* a statement is given to the cursor *)
  | PrintExc (x : exn).          (* [traceback.print_exc()] *)

(** The object [self]. Its parser, wiki and opener never change and are
    parameters of the section below. [chdb] is the scratch database as the
    process sees it through its connection. [trace] is not a field of the
    source: it records the events of the process, oldest first. *)
Record State : Type := {
  exception_count : Z;
  chdb : Db.t;
  trace : list event
}.

Definition set_exception_count (n : Z) (st : State) : State :=
  {| exception_count := n; chdb := chdb st; trace := trace st |}.
Definition set_chdb (db : Db.t) (st : State) : State :=
  {| exception_count := exception_count st; chdb := db; trace := trace st |}.
Definition add_event (ev : event) (st : State) : State :=
  {| exception_count := exception_count st; chdb := chdb st;
     trace := trace st ++ [ev] |}.

Definition add_events (evs : list event) (st : State) : State :=
  {| exception_count := exception_count st; chdb := chdb st;
     trace := trace st ++ evs |}.

(** Code that reads and writes [self] and may raise. What it did to the
    state before it raised stays done. *)
Definition M (A : Type) : Type := State → result A * State.

#[global] Instance M_ret : MRet M := λ A a st, (Ok a, st).
#[global] Instance M_bind : MBind M := λ A B f m st,
  match m st with
  | (Ok a, st') => f a st'
  | (Raise x, st') => (Raise x, st')
  end.

Definition raise {A} (x : exn) : M A := λ st, (Raise x, st).
Definition emit (ev : event) : M unit := λ st, (Ok (), add_event ev st).
Definition lift {A} (r : result A) : M A := λ st, (r, st).

(** [for x in l: f(x)]. *)
Fixpoint for_each {A} (f : A → M unit) (l : list A) : M unit :=
  match l with
  | [] => mret ()
  | x :: l' => f x ≫= λ _, for_each f l'
  end.

Definition MAX_EXCEPTIONS_PER_SUBPROCESS : Z := 5.

(** [initializer(parser)]; [db] is what [chdb.init_scratch_db()] connects
    to. *)
Definition initializer (db : Db.t) : State :=
  {| exception_count := 0; chdb := db; trace := [] |}.

(** [with_max_exceptions(fn)]: the wrapper. [Ok (Some b)] is the value
    that [fn] returned, [Ok None] the [None] that Python returns when the
    [except] clause ends without [raise]. *)
Definition with_max_exceptions {A B} (fn : A → M B) (a : A) : M (option B) :=
  λ st,
    match fn a st with
    | (Ok b, st') => (Ok (Some b), st')
    | (Raise x, st') =>
        let st1 := add_event (PrintExc x) st' in
        let st2 := set_exception_count (exception_count st1 + 1) st1 in
        if exception_count st2 >? MAX_EXCEPTIONS_PER_SUBPROCESS
        then (Raise x, st2)
        else (Ok None, st2)
    end.

(** The dict that [work] appends to [rows]. *)
Record row : Type := {
  article : Db.article_row;
  snippets : list Db.snippet_row
}.

(** [cursor.execute] and [cursor.executemany]: one statement. *)
Definition execute (s : Db.stmt) : M unit := λ st,
  let st1 := add_event (Execute s) st in
  match Db.run s (chdb st1) with
  | Ok db' => (Ok (), set_chdb db' st1)
  | Raise x => (Raise x, st1)
  end.

(** The local function [insert(cursor, r)] of [work]. *)
Definition insert (r : row) : M unit :=
  execute (Db.InsertArticle (article r)) ≫= λ _,
  execute (Db.InsertIgnoreSnippets (snippets r)).

(** Modelled from the spec: chdb.execute_with_retry, which is not part of
    this file ("an insert-with-retry wrapper, retried on transient
    failure"). No statement of the model fails transiently, so the
    operations run once and what they raise is raised. *)
Definition execute_with_retry {A} (operations : A → M unit) (r : A) : M unit :=
  operations r.

Section Worker.

(** [utils.mkid], [cfg], the parser and the remote API. *)
Variable mkid : ustring → ustring.
Variable wikipedia_domain : ustring.
Variables snippet_min_size snippet_max_size : Z.
Variable extract_snippets :
  ustring → Z → Z → result (list (ustring * list ustring)).
(** [request.queryGen()], by the value of the parameter ['pageids']. *)
Variable queryGen : ustring → gen response.

Definition WIKIPEDIA_BASE_URL : ustring := lit "https://" ++ wikipedia_domain.
Definition WIKIPEDIA_WIKI_URL : ustring := WIKIPEDIA_BASE_URL ++ lit "/wiki/".

(** [query_pageids(wiki, opener, pageids)]. *)
Definition query_pageids (pageids : list ustring)
  : gen (ustring * ustring * ustring) :=
  query_responses (queryGen (join (lit "|") pageids)).

(** The two inner loops of [work]: the rows of the snippets of one page. *)
Definition snippets_rows_of (pageid title : ustring)
    (snippets : list (ustring * list ustring)) : list Db.snippet_row :=
  flat_map
    (λ '(sec, snips),
       let sec := section_name_to_anchor sec in
       map (λ sni, (mkid (title ++ sni), sni, sec, pageid)) snips)
    snippets.

(** The body of the first loop of [work] for one fetched page, after the
    call of the parser: the rows that it appends to [rows]. *)
Definition page_rows (pageid title : ustring)
    (snippets : list (ustring * list ustring)) : list row :=
  let url := WIKIPEDIA_WIKI_URL ++ replace (lit " ") (lit "_") title in
  let snippets_rows := snippets_rows_of pageid title snippets in
  match snippets_rows with
  | _ :: _ =>
      let article_row := (pageid, url, title) in
      [ {| article := article_row; snippets := snippets_rows |} ]
  | [] => []
  end.

(** The first loop of [work], over the generator [results]. *)
Fixpoint build_rows (results : gen (ustring * ustring * ustring))
    (rows : list row) : M (list row) :=
  match results with
  | Stop => mret rows
  | Throw x => raise x
  | Yield (pageid, title, wikitext) rest =>
      emit (Fetched pageid) ≫= λ _,
      emit (Extract wikitext) ≫= λ _,
      lift (extract_snippets wikitext snippet_min_size snippet_max_size)
        ≫= λ snippets,
      build_rows rest (rows ++ page_rows pageid title snippets)
  end.

(** The function [work] before it is decorated. *)
Definition work_body (pageids : list ustring) : M unit :=
  let rows := [] in
  let results := query_pageids pageids in
  build_rows results rows ≫= λ rows,
  for_each (execute_with_retry insert) rows.

(** [work], as the pool calls it. *)
Definition work : list ustring → M (option unit) :=
  with_max_exceptions work_body.

(** The successive calls of [work] in one process, each on the state
    that the call before it left, with the result of every call. *)
Fixpoint calls (tasks : list (list ustring)) (st : State)
  : list (result (option unit)) * State :=
  match tasks with
  | [] => ([], st)
  | pageids :: tasks' =>
      let '(r, st1) := work pageids st in
      let '(rs, st2) := calls tasks' st1 in
      (r :: rs, st2)
  end.

(** [multiprocessing.pool.mapstar] of Python's library, the function of
    a task of [pool.map_async(work, tasks)]: [map(work, chunk)] on the
    batches of one chunk of [tasks], so the calls of [work] in order, up
    to the first one that raises. *)
Fixpoint mapstar (chunk : list (list ustring)) : M (list (option unit)) :=
  match chunk with
  | [] => mret []
  | pageids :: chunk' =>
      work pageids ≫= λ r, mapstar chunk' ≫= λ rs, mret (r :: rs)
  end.

(** The loop of [multiprocessing.pool.worker] of Python's library in one
    process, after [initializer], on the tasks that the process takes
    from the queue: the function of the task is called under [try], its
    value [v] gives the result [(True, v)], and [except Exception, e]
    gives the result [(False, e)]; then the result is put on the queue
    of results and the loop takes the next task. Every exception of
    [exn] is an [Exception]. *)
Fixpoint worker (chunks : list (list (list ustring))) (st : State)
  : list (result (list (option unit))) * State :=
  match chunks with
  | [] => ([], st)
  | chunk :: chunks' =>
      let '(result, st1) := mapstar chunk st in
      let '(results, st2) := worker chunks' st1 in
      (result :: results, st2)
  end.

End Worker.

(** The tasks of [pool.map_async(work, tasks)] when a chunk holds one
    batch, as it does when there are no more batches than four times the
    number of processes of the pool. *)
Definition one_each (tasks : list (list ustring)) : list (list (list ustring)) :=
  (λ pageids, [pageids]) <$> tasks.

(** What the loop reports for a chunk of one batch, from the result of
    the call of [work]. *)
Definition reported (r : result (option unit)) : result (list (option unit)) :=
  match r with
  | Ok o => Ok [o]
  | Raise x => Raise x
  end.

(** A call of [work] failed when its body raised: the wrapper either
    swallowed the exception or raised it again. *)
Definition failed (r : result (option unit)) : bool :=
  match r with
  | Ok (Some _) => false
  | Ok None | Raise _ => true
  end.

Definition failures (rs : list (result (option unit))) : nat :=
  length (filter (λ r, failed r = true) rs).

(** ** The scheduler *)

(** The loop of [range(start, stop, step)] for a positive [step]; [fuel]
    bounds the number of values. *)
Fixpoint range_go (fuel i stop step : nat) : list nat :=
  match fuel with
  | O => []
  | S fuel' =>
      if (i <? stop)%nat then i :: range_go fuel' (i + step) stop step
      else []
  end.

(** [range(start, stop, step)], [step] positive: at most [stop] values. *)
Definition range (start stop step : nat) : list nat :=
  range_go stop start stop step.

(** [l[i:j]] for positions [i], [j] that are not negative. *)
Definition slice {A} (l : list A) (i j : nat) : list A :=
  take (j - i) (drop i l).

Definition batch_size : nat := 32.

(** The list [tasks] of [parse_live]. [list(pageids)] enumerates the set
    once, without repetition; [len(pageids)] is its size. *)
Definition make_tasks (pageids : gset ustring) : list (list ustring) :=
  let pageids_list := elements pageids in
  map (λ i, slice pageids_list i (i + batch_size))
      (range 0 (size pageids) batch_size).

(** ** The pool *)

(** The calls of the main process on the scratch database, the pool and
    the log, in the order in which it makes them. *)
Inductive main_event (T : Type) : Type :=
  | ResetScratchDb
  | GetParser
  | PoolCreate
  | MapAsync (tasks : list (list ustring))
  | PoolClose
  | ResultWait (timeout : T)
  | LogInfo (msg : ustring)
  | PoolTerminate
  | PoolJoin.
Arguments ResetScratchDb {T}.
Arguments GetParser {T}.
Arguments PoolCreate {T}.
Arguments MapAsync {T} tasks.
Arguments PoolClose {T}.
Arguments ResultWait {T} timeout.
Arguments LogInfo {T} msg.
Arguments PoolTerminate {T}.
Arguments PoolJoin {T}.

(** [parse_live(pageids, timeout)]. [ready] is what [result.ready()]
    answers when [result.wait(timeout)] has returned: [false] when the
    time is over and some batch is not done. *)
Definition parse_live {T : Type} (pageids : gset ustring) (timeout : T) (ready : bool)
  : list (main_event T) :=
  [ResetScratchDb; GetParser; PoolCreate]
  ++ [MapAsync (make_tasks pageids); PoolClose]
  ++ [ResultWait timeout]
  ++ (if negb ready
      then [LogInfo (lit "timeout, canceling the process pool!"); PoolTerminate]
      else [])
  ++ [PoolJoin].

(** The script: [parse_live], then the line that reports the end. *)
Definition main {T : Type} (pageids : gset ustring) (timeout : T) (ready : bool)
  : list (main_event T) :=
  parse_live pageids timeout ready ++ [LogInfo (lit "all done.")].

(** ** The pool in time *)

(** Python's [multiprocessing.Pool] as the main process sees it, on a
    clock that starts with [parse_live]. The library is not part of the
    repository; the calls do what its documentation says: [close()]
    prevents any more tasks from being submitted, and the worker
    processes exit once all the tasks have been completed; [terminate()]
    stops the worker processes immediately without completing
    outstanding work; [join()] waits for the worker processes to exit,
    and [close()] or [terminate()] must have been called before it;
    [result.wait(timeout)] waits until the result is available or until
    [timeout] has passed; [result.ready()] tells whether the call has
    completed. The calls that do not wait take no time. *)
Module Pool.

(** What the workers do when they are left to run: for each batch of
    [tasks] the time at which it is done, and the time at which the
    result of [map_async] is available. *)
Record timing : Type := {
  finish : list Z;
  available : Z
}.

Inductive status : Type := RUN | CLOSE | TERMINATE.

(** The pool and the log at a moment of the main process: [stopped] is
    the time at which [terminate()] stopped the workers, [joined] tells
    that [join()] has returned, and a line of the log comes with the time
    and with [joined] at that time. *)
Record t : Type := {
  status_of : status;
  now : Z;
  stopped : option Z;
  joined : bool;
  log : list (ustring * Z * bool)
}.

Definition init : t :=
  {| status_of := RUN; now := 0; stopped := None; joined := false;
     log := [] |}.

(** The time up to which the workers have run. *)
Definition horizon (p : t) : Z := default (now p) (stopped p).

(** A batch that is done at time [f] when the workers are left to run
    is done. *)
Definition done_by (p : t) (f : Z) : bool := f <=? horizon p.

(** [result.ready()]. *)
Definition ready (tm : timing) (p : t) : bool := available tm <=? horizon p.

(** The time at which the last batch is done. *)
Definition last_finish (tm : timing) : Z := foldr Z.max 0 (finish tm).

(** The time at which the worker processes have exited: when
    [terminate()] stopped them, or else when all the tasks are done. *)
Definition exit_time (tm : timing) (p : t) : Z :=
  default (last_finish tm) (stopped p).

(** One call of the main process; [None] when the call raises. *)
Definition call (tm : timing) (ev : main_event Z) (p : t) : option t :=
  match ev with
  | ResetScratchDb | GetParser => Some p
  | PoolCreate =>
      Some {| status_of := RUN; now := now p; stopped := None;
              joined := false; log := log p |}
  | MapAsync _ =>
      match status_of p with
      | RUN => Some p
      | _ => None
      end
  | PoolClose =>
      Some {| status_of := match status_of p with RUN => CLOSE | s => s end;
              now := now p; stopped := stopped p; joined := joined p;
              log := log p |}
  | ResultWait timeout =>
      let deadline := now p + Z.max 0 timeout in
      Some {| status_of := status_of p;
              now := if ready tm p then now p
                     else match stopped p with
                          | Some _ => deadline
                          | None => Z.min (available tm) deadline
                          end;
              stopped := stopped p; joined := joined p; log := log p |}
  | LogInfo msg =>
      Some {| status_of := status_of p; now := now p; stopped := stopped p;
              joined := joined p; log := log p ++ [(msg, now p, joined p)] |}
  | PoolTerminate =>
      Some {| status_of := TERMINATE; now := now p;
              stopped := Some (horizon p); joined := joined p;
              log := log p |}
  | PoolJoin =>
      match status_of p with
      | RUN => None
      | _ =>
          Some {| status_of := status_of p;
                  now := Z.max (now p) (exit_time tm p);
                  stopped := stopped p; joined := true; log := log p |}
      end
  end.

(** The calls of [evs], one after the other. *)
Fixpoint run (tm : timing) (evs : list (main_event Z)) (p : t) : option t :=
  match evs with
  | [] => Some p
  | ev :: evs' => call tm ev p ≫= run tm evs'
  end.

End Pool.

(** The calls of [parse_live] up to [result.wait(timeout)], and its
    calls after [result.ready()] has given the answer [ready]. *)
Definition parse_live_start (pageids : gset ustring) (timeout : Z)
  : list (main_event Z) :=
  [ResetScratchDb; GetParser; PoolCreate; MapAsync (make_tasks pageids);
   PoolClose; ResultWait timeout].

Definition parse_live_end (ready : bool) : list (main_event Z) :=
  (if negb ready
   then [LogInfo (lit "timeout, canceling the process pool!"); PoolTerminate]
   else [])
  ++ [PoolJoin].

(** The script against the pool: [result.ready()] answers what the pool
    says when [result.wait(timeout)] has returned. *)
Definition run_main (tm : Pool.timing) (pageids : gset ustring) (timeout : Z)
  : option Pool.t :=
  p ← Pool.run tm (parse_live_start pageids timeout) Pool.init;
  Pool.run tm (parse_live_end (Pool.ready tm p) ++ [LogInfo (lit "all done.")])
           p.

(** [ev1] comes before [ev2] in [l]. *)
Definition before {A} (ev1 ev2 : A) (l : list A) : Prop :=
  ∃ l1 l2 l3, l = l1 ++ ev1 :: l2 ++ ev2 :: l3.

(** [ev2] is the event right after [ev1] in [l]. *)
Definition next_to {A} (ev1 ev2 : A) (l : list A) : Prop :=
  ∃ l1 l3, l = l1 ++ ev1 :: ev2 :: l3.

(** ** The anchor rule, one character at a time *)

(** The anchor of one byte of the UTF-8 form of the title: a colon and the
    bytes that are never quoted stay, any other byte becomes a dot and its
    two hexadecimal digits. *)
Definition anchor_byte (b : Z) : ustring :=
  if b =? 58 then [58]
  else if (b <? 128) && always_safe b then [b]
  else [46; hex_digit (b / 16); hex_digit (b mod 16)].

(** The anchor of one character of the title: a space becomes an
    underscore, any other character goes byte by byte. *)
Definition anchor_char (c : Z) : ustring :=
  if c =? 32 then [95] else flat_map anchor_byte (utf8_char c).

(** ** What a batch builds and what it sends to the database *)

(** The fragments of one page: the snippets of all its sections. *)
Definition fragments (snippets : list (ustring * list ustring)) : list ustring :=
  flat_map snd snippets.

(** The statements of a stretch of the trace, in order. *)
Definition executed (evs : list event) : list Db.stmt :=
  omap (λ ev, match ev with Execute s => Some s | _ => None end) evs.

(** The rows of [articles] and of [snippets] in the statements of a
    stretch of the trace. *)
Definition article_rows (evs : list event) : list Db.article_row :=
  omap (λ s, match s with Db.InsertArticle r => Some r | _ => None end)
       (executed evs).
Definition snippet_rows (evs : list event) : list Db.snippet_row :=
  flat_map (λ s, match s with Db.InsertIgnoreSnippets rs => rs | _ => [] end)
           (executed evs).

(** The events of the first loop of [work] and those of its second loop. *)
Definition is_construction (ev : event) : Prop :=
  match ev with Fetched _ | Extract _ => True | _ => False end.
Definition is_write (ev : event) : Prop :=
  match ev with Execute _ => True | _ => False end.

(** The statements of [insert] for the dicts of [rows]. *)
Definition insert_events (rows : list row) : list event :=
  flat_map (λ r, [Execute (Db.InsertArticle (article r));
                  Execute (Db.InsertIgnoreSnippets (snippets r))]) rows.

(** The second loop of [work]. *)
Definition write_rows : list row → M unit :=
  for_each (execute_with_retry insert).

(** The page id of a dict of [rows]. *)
Definition row_key (r : row) : ustring := Db.article_key (article r).

Section Construction.

Variable mkid : ustring → ustring.
Variable wikipedia_domain : ustring.
Variables snippet_min_size snippet_max_size : Z.
Variable extract_snippets :
  ustring → Z → Z → result (list (ustring * list ustring)).

(** What the first loop of [work] leaves in [rows] when it reaches the
    end of [results], or the exception that stops it. *)
Fixpoint built (results : gen (ustring * ustring * ustring))
  : result (list row) :=
  match results with
  | Stop => Ok []
  | Throw x => Raise x
  | Yield (pageid, title, wikitext) rest =>
      match extract_snippets wikitext snippet_min_size snippet_max_size with
      | Raise x => Raise x
      | Ok snippets =>
          match built rest with
          | Raise x => Raise x
          | Ok rows =>
              Ok (page_rows mkid wikipedia_domain pageid title snippets ++ rows)
          end
      end
  end.

(** The events of the first loop of [work]. *)
Fixpoint construction_events (results : gen (ustring * ustring * ustring))
  : list event :=
  match results with
  | Stop | Throw _ => []
  | Yield (pageid, title, wikitext) rest =>
      Fetched pageid :: Extract wikitext ::
      match extract_snippets wikitext snippet_min_size snippet_max_size with
      | Raise _ => []
      | Ok _ => construction_events rest
      end
  end.

End Construction.

(** ** A small wiki *)

(** The inputs on which the statements below are run: three pages, of
    which one has an unsourced snippet, one has none and one has no
    title; a page on which the parser raises; and a request that fails. *)
Module Scenario.

(** Stands for the digest of [utils.mkid]. *)
Definition mkid (s : ustring) : ustring := lit "id:" ++ s.

Definition wikipedia_domain : ustring := lit "en.wikipedia.org".
Definition snippet_min_size : Z := 100.
Definition snippet_max_size : Z := 420.

Definition extract_snippets (wikitext : ustring) (min max : Z)
  : result (list (ustring * list ustring)) :=
  if decide (wikitext = lit "X needs citation")
  then Ok [(lit "See also", [lit "X needs citation"])]
  else if decide (wikitext = lit "broken") then Raise ParserError
  else Ok [].

Definition page_of (t text : ustring) : page :=
  {| title := Some t; revisions := Some [ {| star := Some text |} ] |}.

Definition queryGen (pageids : ustring) : gen response :=
  if decide (pageids = lit "101|102|103")
  then Yield
         (answer
            [(lit "101", page_of (lit "Page one") (lit "X needs citation"));
             (lit "102", page_of (lit "Page two") (lit "all sourced"));
             (lit "103", {| title := None; revisions := None |})]) Stop
  else if decide (pageids = lit "101|104")
  then Yield
         (answer
            [(lit "101", page_of (lit "Page one") (lit "X needs citation"));
             (lit "104", page_of (lit "Page four") (lit "broken"))]) Stop
  else if decide (pageids = lit "down") then Throw APIError
  else Yield (answer []) Stop.

Definition batch : list ustring := [lit "101"; lit "102"; lit "103"].
Definition batch_broken : list ustring := [lit "101"; lit "104"].
Definition batch_down : list ustring := [lit "down"].

Definition work_body : list ustring → M unit :=
  work_body mkid wikipedia_domain snippet_min_size snippet_max_size
            extract_snippets queryGen.
Definition work : list ustring → M (option unit) :=
  work mkid wikipedia_domain snippet_min_size snippet_max_size
       extract_snippets queryGen.
Definition calls : list (list ustring) → State
  → list (result (option unit)) * State :=
  calls mkid wikipedia_domain snippet_min_size snippet_max_size
        extract_snippets queryGen.

Definition worker : list (list (list ustring)) → State
  → list (result (list (option unit))) * State :=
  worker mkid wikipedia_domain snippet_min_size snippet_max_size
         extract_snippets queryGen.

(** Seven batches of one process: the request fails for all but the
    fourth. *)
Definition seven : list (list ustring) :=
  [batch_down; batch_down; batch_down; batch; batch_down; batch_down;
   batch_down].

(** The state of a process that has processed [batch]. *)
Definition after_batch : State := (work batch (initializer Db.empty)).2.

End Scenario.

(** ** The alphabet of anchors *)

(** The characters that an anchor is made of: those that [urllib.quote]
    never quotes, and the colon. *)
Definition anchor_safe (c : Z) : bool := always_safe c || (c =? 58).

(** ** The entries of the remote answer *)

(** The tuple that [query_pageids] yields for an entry, if it yields
    one: the entry has a title and a text that is not empty. *)
Definition entry_tuple (entry : ustring * page)
  : option (ustring * ustring * ustring) :=
  match title entry.2, page_text entry.2 with
  | Some t, Ok (c :: text) => Some (entry.1, d t, d (c :: text))
  | _, _ => None
  end.

(** An entry on which [query_pageids] does not raise: it has no title,
    or the lookup of its text succeeds. *)
Definition entry_reads (entry : ustring * page) : Prop :=
  title entry.2 = None ∨ ∃ text, page_text entry.2 = Ok text.

(** A response on which [query_pageids] does not raise: it has its pages
    and every entry can be read. *)
Definition response_reads (r : response) : Prop :=
  ∃ items, response_items r = Ok items ∧ Forall entry_reads items.

(** ** The shape of the database *)

(** Every row is stored under its own primary key. *)
Definition db_keyed (db : Db.t) : Prop :=
  (∀ k r, Db.articles db !! k = Some r → Db.article_key r = k)
  ∧ (∀ k s, Db.snippets db !! k = Some s → Db.snippet_key s = k).

(** Every snippet has the page id of an article of the database. *)
Definition db_referential (db : Db.t) : Prop :=
  ∀ k s, Db.snippets db !! k = Some s →
    is_Some (Db.articles db !! Db.snippet_pageid s).

Section Fetched.

Variable mkid : ustring → ustring.
Variable wikipedia_domain : ustring.
Variables snippet_min_size snippet_max_size : Z.
Variable extract_snippets :
  ustring → Z → Z → result (list (ustring * list ustring)).

(** The rows of [articles] of the fetched pages that have a fragment, in
    the order of the pages. *)
Definition fetched_articles (pages : list (ustring * ustring * ustring))
  : list Db.article_row :=
  flat_map
    (λ '(pageid, title, wikitext),
       match extract_snippets wikitext snippet_min_size snippet_max_size with
       | Ok snippets =>
           map article (page_rows mkid wikipedia_domain pageid title snippets)
       | Raise _ => []
       end)
    pages.

(** The rows of [snippets] of the fetched pages, in the order of the
    pages, of their sections and of their fragments. *)
Definition fetched_snippets (pages : list (ustring * ustring * ustring))
  : list Db.snippet_row :=
  flat_map
    (λ '(pageid, title, wikitext),
       match extract_snippets wikitext snippet_min_size snippet_max_size with
       | Ok snippets => snippets_rows_of mkid pageid title snippets
       | Raise _ => []
       end)
    pages.

End Fetched.

(** ** The adapter of wikitools to requests *)

Module Adapter.

(** A [urllib2.Request], as far as [open] reads it; [get_data()] is
    [None] for a request without data. *)
Record Request : Type := {
  headers : gmap ustring ustring;
  get_full_url : ustring;
  get_data : option ustring
}.

(** The answer of [self.session.get]: [text] and [status_code]. *)
Record Response : Type := {
  text : ustring;
  status_code : Z
}.

(** [urllib.addinfourl(fp, headers, url, code)], with the content of the
    [StringIO] for [fp]. *)
Record addinfourl : Type := {
  fp : ustring;
  info : gmap ustring ustring;
  geturl : ustring;
  getcode : Z
}.

(** What [open] can raise: [headers.pop] on a missing key, [str + None],
    and what the session raises. *)
Inductive error : Type :=
  | PopKeyError
  | ConcatTypeError
  | SessionError.

(** A call of [self.session.get]: the URL and the headers. *)
Definition sent : Type := ustring * gmap ustring ustring.

Section Open.

(** [self.session.get(url, headers = headers)]; [None] when it raises. *)
Variable session_get : ustring → gmap ustring ustring → option Response.

(** [WikitoolsRequestsAdapter.open(request)]: its result and the calls of
    the session that it has made. *)
Definition open (request : Request) : (error + addinfourl) * list sent :=
  let hs := headers request in
  match hs !! lit "Content-length" with
  | None => (inl PopKeyError, [])
  | Some _ =>
      let hs := delete (lit "Content-length") hs in
      match get_data request with
      | None => (inl ConcatTypeError, [])
      | Some data =>
          let target := get_full_url request ++ lit "?" ++ data in
          match session_get target hs with
          | None => (inl SessionError, [(target, hs)])
          | Some response =>
              (inr {| fp := text response;
                      info := headers request;
                      geturl := get_full_url request;
                      getcode := status_code response |},
               [(target, hs)])
          end
      end
  end.

End Open.

End Adapter.

(** ** The file of page ids *)

(** The characters that [str.strip()] removes: the space and the
    characters from tab to carriage return. *)
Definition is_space (c : Z) : bool := (c =? 32) || ((9 <=? c) && (c <=? 13)).

Fixpoint lstrip (s : ustring) : ustring :=
  match s with
  | c :: s' => if is_space c then lstrip s' else s
  | [] => []
  end.

Definition rstrip (s : ustring) : ustring := reverse (lstrip (reverse s)).

(** [s.strip()]. *)
Definition strip (s : ustring) : ustring := rstrip (lstrip s).

(** The lines that the iteration of an open file gives: each one ends
    with its newline, but for the last one when the file does not end
    with a newline. *)
Fixpoint file_lines (content : ustring) : list ustring :=
  match content with
  | [] => []
  | c :: content' =>
      if c =? 10 then [c] :: file_lines content'
      else match file_lines content' with
           | [] => [[c]]
           | line :: lines => (c :: line) :: lines
           end
  end.

(** [set(itertools.imap(str.strip, pf))]. *)
Definition read_pageids (content : ustring) : gset ustring :=
  list_to_set (map strip (file_lines content)).

(** The script on a file of page ids: the set is read, then
    [parse_live] runs and the end is reported. *)
Definition script {T : Type} (content : ustring) (timeout : T) (ready : bool)
  : list (main_event T) :=
  main (read_pageids content) timeout ready.

(** ** More inputs on the small wiki *)

Module Scenario2.

(** An answer whose second entry has a title and no ['revisions'], an
    answer for page 102 alone, and two responses of which the second has
    no ['query']. *)
Definition queryGen (pageids : ustring) : gen response :=
  if decide (pageids = lit "101|105|102")
  then Yield
         (answer
            [(lit "101",
              Scenario.page_of (lit "Page one") (lit "X needs citation"));
             (lit "105",
              {| title := Some (lit "Page five"); revisions := None |});
             (lit "102",
              Scenario.page_of (lit "Page two") (lit "all sourced"))]) Stop
  else if decide (pageids = lit "102")
  then Yield
         (answer
            [(lit "102",
              Scenario.page_of (lit "Page two") (lit "all sourced"))]) Stop
  else if decide (pageids = lit "106")
  then Yield
         (answer
            [(lit "101",
              Scenario.page_of (lit "Page one") (lit "X needs citation"))])
         (Yield {| query_of := None |} Stop)
  else Yield (answer []) Stop.

Definition batch_partial : list ustring := [lit "101"; lit "105"; lit "102"].
Definition batch_sourced : list ustring := [lit "102"].
Definition batch_no_pages : list ustring := [lit "106"].

Definition work : list ustring → M (option unit) :=
  work Scenario.mkid Scenario.wikipedia_domain Scenario.snippet_min_size
       Scenario.snippet_max_size Scenario.extract_snippets queryGen.

(** The dict of page 101. *)
Definition row101 : row :=
  {| article := (lit "101", lit "https://en.wikipedia.org/wiki/Page_one",
                 lit "Page one");
     snippets := [(lit "id:Page oneX needs citation", lit "X needs citation",
                   lit "See_also", lit "101")] |}.

(** The same fragment under another section. *)
Definition snippet101_again : Db.snippet_row :=
  (lit "id:Page oneX needs citation", lit "X needs citation",
   lit "Notes", lit "101").

(** Nine batches of one process: the seven, then the batch on which the
    parser raises and one more for which the request fails. *)
Definition nine : list (list ustring) :=
  Scenario.seven ++ [Scenario.batch_broken; Scenario.batch_down].

(** Seven batches of one process: the request fails for the first six. *)
Definition six_down : list (list ustring) :=
  replicate 6 Scenario.batch_down ++ [Scenario.batch].

(** A file of page ids: a line twice, spaces around a page id, an empty
    line, and no newline at the end. *)
Definition content : ustring :=
  lit "101" ++ [10] ++ lit "  102 " ++ [9; 10] ++ [10] ++ lit "101" ++ [10]
  ++ lit "103".

End Scenario2.

(** * Properties *)

(** ** Strings *)

Lemma replace_char_map (a b : Z) (s : ustring) :
  replace [a] [b] s = map (λ c, if a =? c then b else c) s.
Proof.
  unfold replace. induction s as [|c s IH]; [done|].
  cbn [replace_go prefix_b length Nat.pred map].
  rewrite andb_true_r. destruct (a =? c); cbn; by rewrite IH.
Qed.

Lemma replace_go_other (a : Z) (old new rest : ustring) (c : Z) :
  c ≠ a →
  replace_go (a :: old) new O (c :: rest) = c :: replace_go (a :: old) new O rest.
Proof.
  intros Hne. cbn [replace_go prefix_b].
  destruct (Z.eqb_spec a c) as [->|_]; [done|]. reflexivity.
Qed.

Lemma hex_digit_range (n : Z) :
  0 <= n < 16 → 48 <= hex_digit n <= 57 ∨ 65 <= hex_digit n <= 70.
Proof. unfold hex_digit. intros H. destruct (Z.ltb_spec n 10); lia. Qed.

Lemma hex_digit_inj (n m : Z) :
  0 <= n < 16 → 0 <= m < 16 → hex_digit n = hex_digit m → n = m.
Proof.
  unfold hex_digit. intros Hn Hm.
  destruct (Z.ltb_spec n 10), (Z.ltb_spec m 10); lia.
Qed.

Lemma byte_digits (b : Z) :
  is_byte b → 0 <= b / 16 < 16 ∧ 0 <= b mod 16 < 16.
Proof. unfold is_byte. intros H. split; Z.div_mod_to_equations; lia. Qed.

Lemma always_safe_not_percent (b : Z) : always_safe b = true → b ≠ 37.
Proof. intros H ->. discriminate H. Qed.

Lemma replace_go_escape (h1 h2 : Z) (rest : ustring) :
  h1 ≠ 37 → h2 ≠ 37 →
  replace_go [37; 51; 65] [58] O (37 :: h1 :: h2 :: rest)
  = if (51 =? h1) && (65 =? h2)
    then 58 :: replace_go [37; 51; 65] [58] O rest
    else 37 :: h1 :: h2 :: replace_go [37; 51; 65] [58] O rest.
Proof.
  intros H1 H2.
  cbn [replace_go prefix_b length Nat.pred app].
  rewrite Z.eqb_refl, andb_true_r. cbn [andb].
  destruct (Z.eqb_spec 37 h1); [congruence|].
  destruct (Z.eqb_spec 37 h2); [congruence|].
  cbn [andb]. reflexivity.
Qed.

(** The escape of the colon is found exactly where a colon was quoted. *)
Lemma replace_colon_quoter (b : Z) (rest : ustring) :
  is_byte b →
  replace_go (lit "%3A") (lit ":") O (quoter [] b ++ rest)
  = (if b =? 58 then [58] else quoter [] b)
    ++ replace_go (lit "%3A") (lit ":") O rest.
Proof.
  intros Hb. destruct (byte_digits b Hb) as [Hhi Hlo].
  change (lit "%3A") with [37; 51; 65]. change (lit ":") with [58].
  unfold quoter. cbn [mem_b existsb orb].
  destruct ((b <? 128) && always_safe b) eqn:Hsafe.
  - apply andb_true_iff in Hsafe as [_ Hsafe].
    destruct (Z.eqb_spec b 58) as [->|Hne]; [discriminate Hsafe|].
    cbn [app]. apply replace_go_other. by apply always_safe_not_percent.
  - pose proof (hex_digit_range _ Hhi). pose proof (hex_digit_range _ Hlo).
    cbn [app]. rewrite replace_go_escape by lia.
    destruct (Z.eqb_spec b 58) as [->|Hne]; [reflexivity|].
    destruct (Z.eqb_spec 51 (hex_digit (b / 16))) as [H1|H1]; [|reflexivity].
    destruct (Z.eqb_spec 65 (hex_digit (b mod 16))) as [H2|H2]; [|reflexivity].
    exfalso. apply Hne.
    assert (b / 16 = 3) by (apply hex_digit_inj; [done|lia|by rewrite <- H1]).
    assert (b mod 16 = 10) by (apply hex_digit_inj; [done|lia|by rewrite <- H2]).
    Z.div_mod_to_equations. lia.
Qed.

Lemma replace_colon_quote (bs : ustring) :
  Forall is_byte bs →
  replace (lit "%3A") (lit ":") (quote bs [])
  = flat_map (λ b, if b =? 58 then [58] else quoter [] b) bs.
Proof.
  unfold quote. change (replace (lit "%3A") (lit ":")) with
    (replace_go (lit "%3A") (lit ":") O).
  induction 1 as [|b bs Hb _ IH]; [done|].
  cbn [flat_map]. by rewrite replace_colon_quoter, IH.
Qed.

Lemma anchor_byte_spec (b : Z) :
  is_byte b →
  map (λ c, if 37 =? c then 46 else c)
      (if b =? 58 then [58] else quoter [] b)
  = anchor_byte b.
Proof.
  intros Hb. destruct (byte_digits b Hb) as [Hhi Hlo].
  unfold anchor_byte, quoter. cbn [mem_b existsb orb].
  destruct (b =? 58); [done|].
  destruct ((b <? 128) && always_safe b) eqn:Hsafe.
  - apply andb_true_iff in Hsafe as [_ Hsafe].
    apply always_safe_not_percent in Hsafe.
    cbn [map]. destruct (Z.eqb_spec 37 b); [congruence|done].
  - pose proof (hex_digit_range _ Hhi). pose proof (hex_digit_range _ Hlo).
    cbn [map]. rewrite Z.eqb_refl.
    destruct (Z.eqb_spec 37 (hex_digit (b / 16))); [lia|].
    destruct (Z.eqb_spec 37 (hex_digit (b mod 16))); [lia|]. done.
Qed.

Lemma lor_is_byte (a b : Z) : is_byte a → is_byte b → is_byte (Z.lor a b).
Proof.
  unfold is_byte. intros Ha Hb. split; [apply Z.lor_nonneg; lia|].
  destruct (Z.eq_dec (Z.lor a b) 0) as [->|Hne]; [lia|].
  assert (0 <= Z.lor a b) by (apply Z.lor_nonneg; lia).
  change 256 with (2 ^ 8). apply Z.log2_lt_pow2; [lia|].
  rewrite Z.log2_lor by lia.
  assert (Hlog : ∀ x, 0 <= x < 256 → Z.log2 x < 8).
  { intros x Hx. destruct (Z.eq_dec x 0) as [->|]; [done|].
    apply Z.log2_lt_pow2; lia. }
  pose proof (Hlog a Ha). pose proof (Hlog b Hb). lia.
Qed.

Lemma land_63_is_byte (x : Z) : 0 <= x → is_byte (Z.land x 63).
Proof.
  intros Hx. unfold is_byte. change 63 with (Z.ones 6).
  rewrite Z.land_ones by lia. Z.div_mod_to_equations. lia.
Qed.

Lemma shiftr_is_byte (c k : Z) :
  0 <= k → 0 <= c < 256 * 2 ^ k → is_byte (Z.shiftr c k).
Proof.
  intros Hk Hc. unfold is_byte. rewrite Z.shiftr_div_pow2 by lia.
  assert (0 < 2 ^ k) by (apply Z.pow_pos_nonneg; lia).
  split; [apply Z.div_pos; lia|]. apply Z.div_lt_upper_bound; lia.
Qed.

Lemma utf8_char_bytes (c : Z) : code_point c → Forall is_byte (utf8_char c).
Proof.
  unfold code_point, utf8_char. intros Hc.
  assert (Hcont : ∀ k, 0 <= k → is_byte (Z.lor 128 (Z.land (Z.shiftr c k) 63))).
  { intros k Hk. apply lor_is_byte; [unfold is_byte; lia|].
    apply land_63_is_byte, Z.shiftr_nonneg. lia. }
  assert (Hcont0 : is_byte (Z.lor 128 (Z.land c 63))).
  { apply lor_is_byte; [unfold is_byte; lia|]. apply land_63_is_byte. lia. }
  assert (Hlead : ∀ m k, is_byte m → 0 <= k → c < 256 * 2 ^ k →
                   is_byte (Z.lor m (Z.shiftr c k))).
  { intros m k Hm Hk Hlt. apply lor_is_byte; [done|].
    apply shiftr_is_byte; lia. }
  destruct (Z.ltb_spec c 128).
  { apply Forall_cons_2; [unfold is_byte; lia | apply Forall_nil_2]. }
  assert (H2e6 : (2 : Z) ^ 6 = 64) by reflexivity.
  assert (H2e12 : (2 : Z) ^ 12 = 4096) by reflexivity.
  assert (H2e18 : (2 : Z) ^ 18 = 262144) by reflexivity.
  destruct (Z.ltb_spec c 2048).
  { repeat apply Forall_cons_2; try apply Forall_nil_2; auto.
    apply Hlead; unfold is_byte; lia. }
  destruct (Z.ltb_spec c 65536).
  { repeat apply Forall_cons_2; try apply Forall_nil_2; auto;
      try (apply Hcont; lia).
    apply Hlead; unfold is_byte; lia. }
  repeat apply Forall_cons_2; try apply Forall_nil_2; auto;
    try (apply Hcont; lia).
  apply Hlead; unfold is_byte; lia.
Qed.

Lemma anchor_bytes (bs : ustring) :
  Forall is_byte bs →
  replace (lit "%") (lit ".") (replace (lit "%3A") (lit ":") (quote bs []))
  = flat_map anchor_byte bs.
Proof.
  intros Hbs. rewrite replace_colon_quote by done.
  change (lit "%") with [37]. change (lit ".") with [46].
  rewrite replace_char_map.
  induction Hbs as [|b bs Hb _ IH]; [done|].
  cbn [flat_map]. rewrite map_app, IH. f_equal. by apply anchor_byte_spec.
Qed.

Lemma underscore_code_points (s : ustring) :
  Forall code_point s → Forall code_point (replace (lit " ") (lit "_") s).
Proof.
  change (lit " ") with [32]. change (lit "_") with [95].
  rewrite replace_char_map. intros Hs. apply Forall_fmap.
  eapply Forall_impl; [exact Hs|]. intros c Hc. unfold compose.
  destruct (32 =? c); [unfold code_point; lia|done].
Qed.

Lemma e_bytes (s : ustring) : Forall code_point s → Forall is_byte (e s).
Proof.
  unfold e. induction 1 as [|c s Hc _ IH]; [constructor|].
  cbn [flat_map]. apply Forall_app. split; [by apply utf8_char_bytes|done].
Qed.

Lemma anchor_by_char (s : ustring) :
  Forall code_point s → section_name_to_anchor s = flat_map anchor_char s.
Proof.
  intros Hs. unfold section_name_to_anchor. change (e (lit "")) with (@nil Z).
  rewrite anchor_bytes by by apply e_bytes, underscore_code_points.
  change (lit " ") with [32]. change (lit "_") with [95].
  rewrite replace_char_map. unfold e. clear Hs.
  induction s as [|c s IH]; [done|].
  cbn [map flat_map]. rewrite flat_map_app, IH. f_equal.
  unfold anchor_char. destruct (Z.eqb_spec c 32) as [->|Hne].
  - reflexivity.
  - destruct (Z.eqb_spec 32 c); [congruence|done].
Qed.

Lemma replace_char_absent (a b : Z) (s : ustring) :
  a ≠ b → a ∉ replace [a] [b] s.
Proof.
  intros Hne. rewrite replace_char_map. intros Hin.
  apply list_elem_of_fmap in Hin as (c & Heq & _).
  destruct (Z.eqb_spec a c); congruence.
Qed.

(** ** The anchor encoder *)

(** C4. The anchor of a section title is obtained by the four steps in
    their order: spaces to underscores, percent-encoding of the UTF-8
    bytes with nothing marked safe, the escape of the colon put back to a
    colon, every percent sign left turned into a dot. Read character by
    character: a space gives an underscore, a colon gives a colon, a byte
    that is never quoted gives itself and any other byte gives a dot and
    two hexadecimal digits. So "See also" gives "See_also", a colon of the
    title is a colon of the anchor, and no anchor has a percent sign. *)
Theorem section_name_to_anchor_steps (section : ustring) :
  Forall code_point section →
  section_name_to_anchor section
  = replace (lit "%") (lit ".")
      (replace (lit "%3A") (lit ":")
         (quote (e (replace (lit " ") (lit "_") section)) []))
  ∧ section_name_to_anchor section = flat_map anchor_char section
  ∧ (∀ s1 s2, section = s1 ++ lit ":" ++ s2 →
       section_name_to_anchor section
       = (section_name_to_anchor s1 ++ lit ":" ++ section_name_to_anchor s2))
  ∧ (37 ∉ section_name_to_anchor section)
  ∧ section_name_to_anchor (lit "See also") = lit "See_also".
Proof.
  intros Hs. split; [reflexivity|]. split; [by apply anchor_by_char|].
  split; [|split; [|reflexivity]].
  - intros s1 s2 ->. apply Forall_app in Hs as [H1 H2].
    apply Forall_app in H2 as [Hc H2].
    rewrite !anchor_by_char; [|done|done|].
    + by rewrite !flat_map_app.
    + by repeat (apply Forall_app; split).
  - unfold section_name_to_anchor. change (lit "%") with [37].
    change (lit ".") with [46]. by apply replace_char_absent.
Qed.

Lemma section_name_to_anchor_steps_witness :
  section_name_to_anchor (lit "Notes: 100% (a~b)" ++ [233; 8364])
  = lit "Notes:_100.25_.28a.7Eb.29.C3.A9.E2.82.AC"
  ∧ 37 ∉ section_name_to_anchor (lit "Notes: 100% (a~b)" ++ [233; 8364]).
Proof.
  assert (Hs : Forall code_point (lit "Notes: 100% (a~b)" ++ [233; 8364])).
  { let l := eval vm_compute in (lit "Notes: 100% (a~b)" ++ [233; 8364]) in
    change (Forall code_point l).
    repeat (apply Forall_cons_2; [unfold code_point; lia|]).
    apply Forall_nil_2. }
  destruct (section_name_to_anchor_steps _ Hs) as (_ & Hchar & _ & Hpct & _).
  split; [|exact Hpct]. rewrite Hchar. reflexivity.
Defined.

(** ** The scheduler *)

Section Chunks.
Context {A : Type}.
Implicit Types (l b : list A) (ls : list (list A)).

Lemma length_slice l i step : (length (slice l i (i + step)) ≤ step)%nat.
Proof. unfold slice. rewrite length_take. lia. Qed.

(** The slices taken at the positions of [range] are the list cut into
    consecutive pieces. *)
Lemma concat_slices l step fuel i :
  (0 < step)%nat → (length l ≤ i + fuel)%nat →
  concat (map (λ i, slice l i (i + step)) (range_go fuel i (length l) step))
  = drop i l.
Proof.
  intros Hstep. revert i. induction fuel as [|fuel IH]; intros i Hfuel.
  - cbn. symmetry. apply drop_ge. lia.
  - cbn [range_go]. destruct (Nat.ltb_spec i (length l)) as [Hlt|Hge].
    + cbn [map concat]. rewrite IH by lia. unfold slice.
      replace (i + step - i)%nat with step by lia.
      rewrite <- (drop_drop l step i). apply take_drop.
    + cbn. symmetry. by apply drop_ge.
Qed.

Lemma elem_of_concat ls (x : A) : x ∈ concat ls ↔ ∃ b, x ∈ b ∧ b ∈ ls.
Proof.
  rewrite list_elem_of_In, in_concat. split.
  - intros (b & Hb & Hx). exists b. by rewrite !list_elem_of_In.
  - intros (b & Hx & Hb). exists b. by rewrite <- !list_elem_of_In.
Qed.

(** In a family of lists whose concatenation has no repetition, an
    element is in one list at most. *)
Lemma NoDup_concat_unique ls i j b b' (x : A) :
  NoDup (concat ls) →
  ls !! i = Some b → ls !! j = Some b' → x ∈ b → x ∈ b' → i = j.
Proof.
  revert i j. induction ls as [|c ls IH]; intros i j Hnd Hi Hj Hx Hx'.
  - done.
  - cbn [concat] in Hnd. apply NoDup_app in Hnd as (_ & Hdisj & Hnd).
    assert (Hin : ∀ k d, ls !! k = Some d → x ∈ d → x ∈ concat ls).
    { intros k d Hk Hd. apply elem_of_concat. exists d. split; [done|].
      by eapply list_elem_of_lookup_2. }
    destruct i as [|i], j as [|j]; cbn in Hi, Hj.
    + done.
    + injection Hi as ->. exfalso. eapply Hdisj; [exact Hx|]. by eapply Hin.
    + injection Hj as ->. exfalso. eapply Hdisj; [exact Hx'|]. by eapply Hin.
    + f_equal. by eapply IH.
Qed.

End Chunks.

Lemma concat_make_tasks (pageids : gset ustring) :
  concat (make_tasks pageids) = elements pageids.
Proof.
  unfold make_tasks, range, size, set_size. cbn.
  rewrite concat_slices; [done | unfold batch_size; lia | lia].
Qed.

(** C3. The tasks are batches of at most 32 page ids; put end to end they
    are the enumeration of the input set, so nothing is added and nothing
    is repeated; every page id of the set is in one batch and one only,
    once; and the union of the batches is the input set. *)
Theorem make_tasks_partition (pageids : gset ustring) :
  Forall (λ b, (length b ≤ 32)%nat) (make_tasks pageids)
  ∧ concat (make_tasks pageids) = elements pageids
  ∧ NoDup (concat (make_tasks pageids))
  ∧ (∀ x, x ∈ pageids ↔
       ∃ i b, make_tasks pageids !! i = Some b ∧ x ∈ b
              ∧ ∀ j b', make_tasks pageids !! j = Some b' → x ∈ b' → j = i)
  ∧ ⋃ (list_to_set <$> make_tasks pageids) = pageids.
Proof.
  assert (Hnd : NoDup (concat (make_tasks pageids))).
  { rewrite concat_make_tasks. apply NoDup_elements. }
  assert (Hin : ∀ x, x ∈ pageids ↔ x ∈ concat (make_tasks pageids)).
  { intros x. rewrite concat_make_tasks. symmetry. apply elem_of_elements. }
  split; [|split; [apply concat_make_tasks|split; [exact Hnd|split]]].
  - unfold make_tasks. apply Forall_fmap, Forall_forall. intros i _.
    apply (length_slice (elements pageids) i batch_size).
  - intros x. rewrite Hin, elem_of_concat. split.
    + intros (b & Hx & Hb). apply list_elem_of_lookup in Hb as [i Hi].
      exists i, b. split; [done|]. split; [done|].
      intros j b' Hj Hx'. by eapply NoDup_concat_unique.
    + intros (i & b & Hi & Hx & _). exists b. split; [done|].
      by eapply list_elem_of_lookup_2.
  - apply set_eq. intros x. rewrite elem_of_union_list, Hin, elem_of_concat.
    split.
    + intros (X & HX & Hx). apply list_elem_of_fmap in HX as (b & -> & Hb).
      exists b. split; [|done]. by apply elem_of_list_to_set in Hx.
    + intros (b & Hx & Hb). exists (list_to_set b). split.
      * apply list_elem_of_fmap. by exists b.
      * by apply elem_of_list_to_set.
Qed.

(** ** The fetch client *)

(** A page without title, or with an empty text, leaves the generator as
    it is without that page. *)
Lemma query_pages_skip (pre post : entries) (id : ustring) (p : page) later :
  title p = None ∨ page_text p = Ok [] →
  query_pages (pre ++ (id, p) :: post) later = query_pages (pre ++ post) later.
Proof.
  intros Hskip. induction pre as [|[id' p'] pre IH].
  - cbn [app query_pages]. destruct Hskip as [->| Htext]; [done|].
    rewrite Htext. by destruct (title p).
  - cbn [app query_pages]. rewrite IH. reflexivity.
Qed.

Lemma query_pages_yielded (pages : entries) later id t text :
  (id, t, text) ∈ yielded (query_pages pages later) →
  (text ≠ [] ∧ ∃ p, (id, p) ∈ pages ∧ title p = Some t ∧ page_text p = Ok text)
  ∨ (id, t, text) ∈ yielded later.
Proof.
  induction pages as [|[id' p'] pages IH]; [by right|].
  cbn [query_pages].
  assert (Hrest : (id, t, text) ∈ yielded (query_pages pages later) →
    (text ≠ [] ∧ ∃ p, (id, p) ∈ (id', p') :: pages ∧ title p = Some t
                      ∧ page_text p = Ok text)
    ∨ (id, t, text) ∈ yielded later).
  { intros H. destruct (IH H) as [(Hne & p & Hin & Ht & Htext)|Hl]; [|by right].
    left. split; [done|]. exists p. split; [by right|done]. }
  destruct (title p') as [t'|] eqn:Ht; [|exact Hrest].
  destruct (page_text p') as [[|c text']|x] eqn:Htext.
  - exact Hrest.
  - cbn [yielded]. intros Hin. apply elem_of_cons in Hin as [Heq|Hin].
    + injection Heq as -> -> ->. left. split; [done|].
      exists p'. split; [by left|done].
    + by apply Hrest.
  - cbn [yielded]. intros Hin. by apply elem_of_nil in Hin.
Qed.

(** One step of the outer loop on a response that has its pages. *)
Lemma query_responses_answer (items : entries) (rest : gen response) :
  query_responses (Yield (answer items) rest)
  = query_pages items (query_responses rest).
Proof. reflexivity. Qed.

Lemma response_entries_answer (items : entries) :
  response_entries (answer items) = items.
Proof. reflexivity. Qed.

Lemma query_responses_yielded (responses : gen response) id t text :
  (id, t, text) ∈ yielded (query_responses responses) →
  text ≠ [] ∧ ∃ r p, r ∈ yielded responses ∧ (id, p) ∈ response_entries r
                     ∧ title p = Some t ∧ page_text p = Ok text.
Proof.
  induction responses as [|r rest IH|x]; cbn [query_responses yielded].
  - intros Hin. by apply elem_of_nil in Hin.
  - unfold response_entries at 1.
    destruct (response_items r) as [items|y] eqn:Hr.
    + intros Hin. apply query_pages_yielded in Hin
        as [(Hne & p & Hp & Ht & Htext)|Hin].
      * split; [done|]. exists r, p. unfold response_entries. rewrite Hr.
        split; [by left|done].
      * destruct (IH Hin) as (Hne & r' & p & Hr' & Hp).
        split; [done|]. exists r', p. split; [by right|done].
    + intros Hin. by apply elem_of_nil in Hin.
  - intros Hin. by apply elem_of_nil in Hin.
Qed.

Lemma query_responses_skip (g1 g2 : gen response) (pre post : entries)
    (id : ustring) (p : page) :
  title p = None ∨ page_text p = Ok [] →
  query_responses (gen_app g1 (Yield (answer (pre ++ (id, p) :: post)) g2))
  = query_responses (gen_app g1 (Yield (answer (pre ++ post)) g2)).
Proof.
  intros Hskip. induction g1 as [|r rest IH|x]; cbn [gen_app].
  - rewrite !query_responses_answer. by apply query_pages_skip.
  - cbn [query_responses]. by rewrite IH.
  - reflexivity.
Qed.

(** C8. An entry of the remote answer that has no title, or whose text is
    empty, is left out: the client yields what it would yield if the
    answer did not have this entry, the same tuples and the same end, so
    the entry raises nothing. Every tuple that the client yields comes
    from an entry that has this title and this text, and the text is not
    empty. *)
Theorem query_pageids_omits (queryGen : ustring → gen response)
    (pageids : list ustring) :
  (∀ g1 g2 pre post id p,
     queryGen (join (lit "|") pageids)
       = gen_app g1 (Yield (answer (pre ++ (id, p) :: post)) g2) →
     title p = None ∨ page_text p = Ok [] →
     query_pageids queryGen pageids
     = query_responses (gen_app g1 (Yield (answer (pre ++ post)) g2)))
  ∧ (∀ id t text,
       (id, t, text) ∈ yielded (query_pageids queryGen pageids) →
       text ≠ []
       ∧ ∃ r p, r ∈ yielded (queryGen (join (lit "|") pageids))
                ∧ (id, p) ∈ response_entries r
                ∧ title p = Some t ∧ page_text p = Ok text).
Proof.
  unfold query_pageids. split.
  - intros g1 g2 pre post id p -> Hskip. by apply query_responses_skip.
  - intros id t text. apply query_responses_yielded.
Qed.

(** ** The worker: the two loops of [work] *)

Lemma add_events_nil st : add_events [] st = st.
Proof. destruct st. unfold add_events. cbn. by rewrite app_nil_r. Qed.

Lemma add_events_app evs1 evs2 st :
  add_events evs2 (add_events evs1 st) = add_events (evs1 ++ evs2) st.
Proof. unfold add_events. cbn. by rewrite app_assoc. Qed.

Lemma add_event_events ev st : add_event ev st = add_events [ev] st.
Proof. reflexivity. Qed.

(** *** The second loop: the statements of [insert] *)

Lemma insert_article_fresh r db db' :
  Db.insert_article r db = Ok db' →
  Db.articles db !! Db.article_key r = None
  ∧ Db.articles db' = <[Db.article_key r := r]> (Db.articles db)
  ∧ Db.snippets db' = Db.snippets db.
Proof.
  unfold Db.insert_article.
  destruct (Db.articles db !! Db.article_key r); [done|].
  by intros [= <-].
Qed.

Lemma insert_article_taken r db :
  is_Some (Db.articles db !! Db.article_key r) →
  Db.insert_article r db = Raise IntegrityError.
Proof. unfold Db.insert_article. by intros [? ->]. Qed.

Lemma insert_article_raises r db x :
  Db.insert_article r db = Raise x →
  x = IntegrityError ∧ is_Some (Db.articles db !! Db.article_key r).
Proof.
  unfold Db.insert_article.
  destruct (Db.articles db !! Db.article_key r) eqn:H; [|done].
  intros [= <-]. split; [done|by eexists].
Qed.

(** [INSERT IGNORE] leaves [articles] alone, keeps every row that
    [snippets] has and adds rows under the keys of its rows only. *)
Lemma insert_ignore_snippets_spec rs db :
  Db.articles (foldl Db.insert_ignore_snippet db rs) = Db.articles db
  ∧ (∀ k v, Db.snippets db !! k = Some v →
       Db.snippets (foldl Db.insert_ignore_snippet db rs) !! k = Some v)
  ∧ (∀ k, k ∉ map Db.snippet_key rs →
       Db.snippets (foldl Db.insert_ignore_snippet db rs) !! k
       = Db.snippets db !! k)
  ∧ (∀ r, r ∈ rs →
       is_Some (Db.snippets (foldl Db.insert_ignore_snippet db rs)
                !! Db.snippet_key r)).
Proof.
  revert db. induction rs as [|r rs IH]; intros db; cbn [foldl map].
  - split; [done|]. split; [done|]. split; [done|].
    intros r Hr. by apply elem_of_nil in Hr.
  - destruct (IH (Db.insert_ignore_snippet db r)) as (Ha & Hkeep & Hframe & Hin).
    assert (Hstep : ∀ k v, Db.snippets db !! k = Some v →
              Db.snippets (Db.insert_ignore_snippet db r) !! k = Some v).
    { intros k v Hk. unfold Db.insert_ignore_snippet.
      destruct (Db.snippets db !! Db.snippet_key r) eqn:Hr; [done|]. cbn.
      rewrite lookup_insert_ne; [done|]. intros <-. congruence. }
    split; [|split; [|split]].
    + rewrite Ha. unfold Db.insert_ignore_snippet.
      by destruct (Db.snippets db !! Db.snippet_key r).
    + intros k v Hk. by apply Hkeep, Hstep.
    + intros k Hk. apply not_elem_of_cons in Hk as [Hne Hk].
      rewrite Hframe by done. unfold Db.insert_ignore_snippet.
      destruct (Db.snippets db !! Db.snippet_key r); [done|]. cbn.
      by rewrite lookup_insert_ne.
    + intros r' Hr'. apply elem_of_cons in Hr' as [->|Hr']; [|by apply Hin].
      assert (Hone : is_Some (Db.snippets (Db.insert_ignore_snippet db r)
                              !! Db.snippet_key r)).
      { unfold Db.insert_ignore_snippet.
        destruct (Db.snippets db !! Db.snippet_key r) as [v|] eqn:Hr.
        - by exists v.
        - exists r. cbn. by rewrite lookup_insert_eq. }
      destruct Hone as [v Hv]. exists v. by apply Hkeep.
Qed.

(** Rows whose ids [snippets] has are all ignored. *)
Lemma insert_ignore_snippets_again rs db :
  (∀ r, r ∈ rs → is_Some (Db.snippets db !! Db.snippet_key r)) →
  foldl Db.insert_ignore_snippet db rs = db.
Proof.
  induction rs as [|r rs IH]; [done|]. intros Hall. cbn [foldl].
  assert (Hr : Db.insert_ignore_snippet db r = db).
  { unfold Db.insert_ignore_snippet.
    destruct (Hall r) as [v ->]; [by left|done]. }
  rewrite Hr. apply IH. intros r' Hr'. apply Hall. by right.
Qed.

(** One call of [insert]: it raises on the article, before any snippet,
    or it does both statements. *)
Lemma insert_spec (r : row) st :
  let st1 := add_events [Execute (Db.InsertArticle (article r))] st in
  match Db.insert_article (article r) (chdb st) with
  | Raise x => execute_with_retry insert r st = (Raise x, st1)
  | Ok db1 =>
      execute_with_retry insert r st
      = (Ok (),
         set_chdb (foldl Db.insert_ignore_snippet db1 (snippets r))
           (add_events (insert_events [r]) st))
  end.
Proof.
  unfold execute_with_retry, insert, mbind, M_bind, execute.
  rewrite !add_event_events. cbn [chdb add_events Db.run].
  destruct (Db.insert_article (article r) (chdb st)) as [db1|x]; [|done].
  cbn. unfold set_chdb, add_events. cbn. by rewrite <- app_assoc.
Qed.

Lemma write_rows_cons r rows st res st' :
  write_rows (r :: rows) st = (res, st') →
  (∃ db1, Db.insert_article (article r) (chdb st) = Ok db1
          ∧ write_rows rows
              (set_chdb (foldl Db.insert_ignore_snippet db1 (snippets r))
                        (add_events (insert_events [r]) st))
            = (res, st'))
  ∨ (is_Some (Db.articles (chdb st) !! row_key r)
     ∧ res = Raise IntegrityError
     ∧ st' = add_events [Execute (Db.InsertArticle (article r))] st).
Proof.
  unfold write_rows. cbn [for_each]. unfold mbind at 1, M_bind at 1.
  pose proof (insert_spec r st) as Hr. cbv zeta in Hr.
  destruct (Db.insert_article (article r) (chdb st)) as [db1|x] eqn:Hins;
    rewrite Hr.
  - intros H. left. by exists db1.
  - intros [= <- <-]. right.
    apply insert_article_raises in Hins as [-> Hsome]. done.
Qed.

(** The second loop sends statements of [insert] only, in the order of
    [rows], and stops at the first that fails; it leaves the counter of
    exceptions alone. *)
Lemma write_rows_trace rows st res st' :
  write_rows rows st = (res, st') →
  exception_count st' = exception_count st
  ∧ (∀ x, res = Raise x → x = IntegrityError)
  ∧ ∃ evs, trace st' = trace st ++ evs
           ∧ evs `prefix_of` insert_events rows
           ∧ (res = Ok () → evs = insert_events rows).
Proof.
  revert st. induction rows as [|r rows IH]; intros st Hrun.
  - injection Hrun as <- <-. split; [done|]. split; [done|].
    exists []. by rewrite app_nil_r.
  - apply write_rows_cons in Hrun as [(db1 & _ & Hrun)|(_ & -> & ->)].
    + apply IH in Hrun as (Hcount & Hexn & evs & Htrace & Hpre & Hall).
      split; [done|]. split; [done|].
      exists (insert_events [r] ++ evs). cbn in Htrace.
      split; [by rewrite Htrace, app_assoc|].
      change (insert_events (r :: rows))
        with (insert_events [r] ++ insert_events rows).
      split; [by apply prefix_app|]. intros Hok. by rewrite Hall.
    + split; [done|]. split; [by intros ? [= <-]|].
      eexists. split; [reflexivity|]. split; [|done].
      by eexists.
Qed.

(** The second loop never changes or removes a row that the database
    has, and adds rows under the keys of [rows] only. *)
Lemma write_rows_db rows st res st' :
  write_rows rows st = (res, st') →
  (∀ k v, Db.articles (chdb st) !! k = Some v →
     Db.articles (chdb st') !! k = Some v)
  ∧ (∀ k v, Db.snippets (chdb st) !! k = Some v →
       Db.snippets (chdb st') !! k = Some v)
  ∧ (∀ k, k ∉ map row_key rows →
       Db.articles (chdb st') !! k = Db.articles (chdb st) !! k)
  ∧ (∀ k, k ∉ flat_map (λ r, map Db.snippet_key (snippets r)) rows →
       Db.snippets (chdb st') !! k = Db.snippets (chdb st) !! k).
Proof.
  revert st. induction rows as [|r rows IH]; intros st Hrun.
  - by injection Hrun as <- <-.
  - apply write_rows_cons in Hrun as [(db1 & Hins & Hrun)|(_ & -> & ->)];
      [|done].
    apply IH in Hrun as (Ha & Hs & Hfa & Hfs). cbn [chdb set_chdb] in *.
    apply insert_article_fresh in Hins as (Hfresh & Hdb1a & Hdb1s).
    destruct (insert_ignore_snippets_spec (snippets r) db1)
      as (Hia & Hikeep & Hiframe & _).
    split; [|split; [|split]].
    + intros k v Hk. apply Ha. rewrite Hia, Hdb1a.
      rewrite lookup_insert_ne; [done|]. intros <-.
      unfold row_key in *. congruence.
    + intros k v Hk. apply Hs, Hikeep. by rewrite Hdb1s.
    + intros k Hk. cbn [map] in Hk. apply not_elem_of_cons in Hk as [Hne Hk].
      rewrite Hfa by done. rewrite Hia, Hdb1a. by rewrite lookup_insert_ne.
    + intros k Hk. cbn [flat_map] in Hk. apply not_elem_of_app in Hk as [Hk1 Hk2].
      rewrite Hfs by done. rewrite Hiframe by done. by rewrite Hdb1s.
Qed.

(** When the second loop ends, no key of [rows] was in [articles] before,
    no two dicts of [rows] have the same page id, and every row is in the
    database: the article as it was built, each snippet under its id. *)
Lemma write_rows_ok rows st st' :
  write_rows rows st = (Ok (), st') →
  NoDup (map row_key rows)
  ∧ ∀ r, r ∈ rows →
      Db.articles (chdb st) !! row_key r = None
      ∧ Db.articles (chdb st') !! row_key r = Some (article r)
      ∧ ∀ s, s ∈ snippets r →
          is_Some (Db.snippets (chdb st') !! Db.snippet_key s).
Proof.
  revert st. induction rows as [|r rows IH]; intros st Hrun.
  - split; [constructor|]. intros r Hr. by apply elem_of_nil in Hr.
  - apply write_rows_cons in Hrun as [(db1 & Hins & Hrun)|(_ & [=] & _)].
    pose proof (write_rows_db _ _ _ _ Hrun) as (Ha & Hs & _ & _).
    apply IH in Hrun as (Hnd & Hrows). cbn [chdb set_chdb] in *.
    apply insert_article_fresh in Hins as (Hfresh & Hdb1a & Hdb1s).
    destruct (insert_ignore_snippets_spec (snippets r) db1)
      as (Hia & _ & _ & Hiin).
    assert (Hr1 : Db.articles (foldl Db.insert_ignore_snippet db1 (snippets r))
                  !! row_key r = Some (article r)).
    { rewrite Hia, Hdb1a. apply lookup_insert_eq. }
    split.
    + cbn [map]. apply NoDup_cons_2; [|done]. intros Hin.
      apply list_elem_of_fmap in Hin as (r' & Hkey & Hr').
      destruct (Hrows r' Hr') as (Hnone & _). rewrite <- Hkey in Hnone.
      congruence.
    + intros r' Hr'. apply elem_of_cons in Hr' as [->|Hr'].
      * split; [done|]. split; [by apply Ha|].
        intros s Hin. destruct (Hiin s Hin) as [v Hv]. exists v. by apply Hs.
      * destruct (Hrows r' Hr') as (Hnone & Hsome & Hsn).
        split; [|done]. rewrite Hia, Hdb1a in Hnone.
        destruct (decide (row_key r = row_key r')) as [Heq|Hne].
        -- rewrite <- Heq in Hnone. unfold row_key in Hnone.
           by rewrite lookup_insert_eq in Hnone.
        -- by rewrite lookup_insert_ne in Hnone.
Qed.

(** A page id that [articles] has stops the second loop. *)
Lemma write_rows_duplicate rows st r :
  r ∈ rows → is_Some (Db.articles (chdb st) !! row_key r) →
  ∃ st', write_rows rows st = (Raise IntegrityError, st').
Proof.
  intros Hr [v Hv]. destruct (write_rows rows st) as [res st'] eqn:Hrun.
  exists st'. f_equal. destruct res as [[]|x].
  - apply write_rows_ok in Hrun as (_ & Hrows).
    destruct (Hrows r Hr) as (Hnone & _). congruence.
  - apply write_rows_trace in Hrun as (_ & Hexn & _). by rewrite (Hexn x).
Qed.

(** *** The rows in a stretch of the trace *)

Lemma executed_app evs1 evs2 :
  executed (evs1 ++ evs2) = executed evs1 ++ executed evs2.
Proof. unfold executed. apply omap_app. Qed.

Lemma article_rows_app evs1 evs2 :
  article_rows (evs1 ++ evs2) = article_rows evs1 ++ article_rows evs2.
Proof. unfold article_rows. rewrite executed_app. apply omap_app. Qed.

Lemma snippet_rows_app evs1 evs2 :
  snippet_rows (evs1 ++ evs2) = snippet_rows evs1 ++ snippet_rows evs2.
Proof. unfold snippet_rows. rewrite executed_app. apply flat_map_app. Qed.

Lemma executed_construction evs :
  Forall is_construction evs → executed evs = [].
Proof.
  induction 1 as [|ev evs Hev _ IH]; [done|].
  unfold executed in *. cbn. rewrite IH. by destruct ev.
Qed.

Lemma insert_events_are_writes rows : Forall is_write (insert_events rows).
Proof.
  induction rows as [|r rows IH]; [constructor|].
  cbn. by repeat (apply Forall_cons_2; [done|]).
Qed.

Lemma article_rows_insert_events rows :
  article_rows (insert_events rows) = map article rows.
Proof. induction rows as [|r rows IH]; [done|]. cbn. by rewrite <- IH. Qed.

Lemma snippet_rows_insert_events rows :
  snippet_rows (insert_events rows) = flat_map snippets rows.
Proof. induction rows as [|r rows IH]; [done|]. cbn. by rewrite <- IH. Qed.

Lemma prefix_is_write (evs evs' : list event) :
  evs `prefix_of` evs' → Forall is_write evs' → Forall is_write evs.
Proof. intros [k ->] H. by apply Forall_app in H as [? _]. Qed.

(** What a stretch of the trace sends is sent by any longer stretch. *)
Lemma prefix_rows (evs evs' : list event) :
  evs `prefix_of` evs' →
  article_rows evs ⊆ article_rows evs' ∧ snippet_rows evs ⊆ snippet_rows evs'.
Proof.
  intros [k ->]. rewrite article_rows_app, snippet_rows_app.
  split; intros x Hx; apply elem_of_app; by left.
Qed.

(** *** Dicts with different page ids *)

Lemma filter_all {A} (P : A → Prop) `{∀ x, Decision (P x)} (l : list A) :
  Forall P l → filter P l = l.
Proof.
  induction 1 as [|x l Hx _ IH]; [done|].
  rewrite filter_cons_True by done. by rewrite IH.
Qed.

Lemma filter_none {A} (P : A → Prop) `{∀ x, Decision (P x)} (l : list A) :
  Forall (λ x, ¬ P x) l → filter P l = [].
Proof.
  induction 1 as [|x l Hx _ IH]; [done|]. by rewrite filter_cons_False.
Qed.

Lemma filter_articles_none rows (k : ustring) :
  k ∉ map row_key rows →
  filter (λ a, Db.article_key a = k) (map article rows) = [].
Proof.
  induction rows as [|r rows IH]; [done|]. cbn [map]. intros Hk.
  apply not_elem_of_cons in Hk as [Hne Hk].
  rewrite filter_cons_False by (intros Heq; by apply Hne). by apply IH.
Qed.

Lemma filter_articles_one rows r :
  NoDup (map row_key rows) → r ∈ rows →
  filter (λ a, Db.article_key a = row_key r) (map article rows) = [article r].
Proof.
  induction rows as [|r' rows IH]; intros Hnd Hr.
  - by apply elem_of_nil in Hr.
  - cbn [map] in *. apply NoDup_cons in Hnd as [Hnotin Hnd].
    apply elem_of_cons in Hr as [->|Hr].
    + rewrite filter_cons_True by done. by rewrite filter_articles_none.
    + rewrite filter_cons_False; [by apply IH|].
      intros Heq. apply Hnotin. apply list_elem_of_fmap. by exists r.
Qed.

Lemma filter_snippets_none rows (k : ustring) :
  (∀ r, r ∈ rows → Forall (λ s, Db.snippet_pageid s = row_key r) (snippets r)) →
  k ∉ map row_key rows →
  filter (λ s, Db.snippet_pageid s = k) (flat_map snippets rows) = [].
Proof.
  induction rows as [|r rows IH]; [done|]. cbn [map flat_map]. intros Hall Hk.
  apply not_elem_of_cons in Hk as [Hne Hk]. rewrite filter_app.
  rewrite IH; [|intros r' Hr'; apply Hall; by right|done].
  rewrite app_nil_r. apply filter_none.
  eapply Forall_impl; [apply Hall; by left|]. cbn. congruence.
Qed.

Lemma filter_snippets_one rows r :
  (∀ r, r ∈ rows → Forall (λ s, Db.snippet_pageid s = row_key r) (snippets r)) →
  NoDup (map row_key rows) → r ∈ rows →
  filter (λ s, Db.snippet_pageid s = row_key r) (flat_map snippets rows)
  = snippets r.
Proof.
  induction rows as [|r' rows IH]; intros Hall Hnd Hr.
  - by apply elem_of_nil in Hr.
  - cbn [map flat_map] in *. apply NoDup_cons in Hnd as [Hnotin Hnd].
    assert (Hall' : ∀ r, r ∈ rows →
      Forall (λ s, Db.snippet_pageid s = row_key r) (snippets r))
      by (intros r0 Hr0; apply Hall; by right).
    rewrite filter_app. apply elem_of_cons in Hr as [->|Hr].
    + rewrite filter_snippets_none by done. rewrite app_nil_r.
      apply filter_all, Hall. by left.
    + rewrite IH by done.
      assert (Hne : row_key r' ≠ row_key r).
      { intros Heq. apply Hnotin. apply list_elem_of_fmap. by exists r. }
      replace (filter (λ s, Db.snippet_pageid s = row_key r) (snippets r'))
        with (@nil Db.snippet_row); [done|].
      symmetry. apply filter_none.
      eapply Forall_impl; [apply Hall; by left|]. cbn. congruence.
Qed.

(** *** Counting the calls that failed *)

Lemma failures_cons r rs :
  failures (r :: rs) = ((if failed r then 1 else 0) + failures rs)%nat.
Proof.
  unfold failures. rewrite filter_cons.
  destruct (failed r); by case_decide.
Qed.

Lemma failures_take_le k rs : (failures (take k rs) ≤ failures rs)%nat.
Proof.
  revert k. induction rs as [|r rs IH]; intros [|k]; cbn [take];
    rewrite ?failures_cons; try (unfold failures; cbn; lia).
  specialize (IH k). lia.
Qed.

(** *** The values that [INSERT IGNORE] stores *)

Lemma insert_ignore_snippets_values rs db k s :
  Db.snippets (foldl Db.insert_ignore_snippet db rs) !! k = Some s →
  Db.snippets db !! k = Some s ∨ (s ∈ rs ∧ Db.snippet_key s = k).
Proof.
  revert db. induction rs as [|r rs IH]; intros db; cbn [foldl]; [by left|].
  intros Hk. apply IH in Hk as [Hk|[Hin Hkey]]; [|right; split; [by right|done]].
  unfold Db.insert_ignore_snippet in Hk.
  destruct (Db.snippets db !! Db.snippet_key r) eqn:Hr; [by left|].
  cbn in Hk. destruct (decide (Db.snippet_key r = k)) as [<-|Hne].
  - rewrite lookup_insert_eq in Hk. injection Hk as <-.
    right. split; [by left|done].
  - rewrite lookup_insert_ne in Hk by done. by left.
Qed.

(** X19. In one statement of [snippets], a row whose id the table does
    not have and that no row before it in the statement has is the row
    that the table has for this id afterwards: of the rows with the same
    id the first is stored, the others are ignored. *)
Theorem insert_ignore_first_wins (pre post : list Db.snippet_row)
    (r : Db.snippet_row) (db : Db.t) :
  Db.snippets db !! Db.snippet_key r = None →
  Forall (λ r', Db.snippet_key r' ≠ Db.snippet_key r) pre →
  ∃ db', Db.run (Db.InsertIgnoreSnippets (pre ++ r :: post)) db = Ok db'
         ∧ Db.snippets db' !! Db.snippet_key r = Some r.
Proof.
  intros Hnew Hpre. eexists. split; [reflexivity|].
  rewrite foldl_app. cbn [foldl].
  destruct (insert_ignore_snippets_spec post
              (Db.insert_ignore_snippet (foldl Db.insert_ignore_snippet db pre) r))
    as (_ & Hkeep & _).
  apply Hkeep.
  destruct (insert_ignore_snippets_spec pre db) as (_ & _ & Hframe & _).
  unfold Db.insert_ignore_snippet at 1.
  rewrite Hframe, Hnew.
  - cbn. apply lookup_insert_eq.
  - intros Hin. apply list_elem_of_fmap in Hin as (r' & Hkey & Hr').
    rewrite Forall_forall in Hpre. by apply (Hpre r' Hr').
Qed.

(** One dict of [rows] whose snippets have its page id keeps the shape of
    the database. *)
Lemma insert_keeps_shape (r : row) db db1 :
  Forall (λ s, Db.snippet_pageid s = row_key r) (snippets r) →
  db_keyed db → db_referential db →
  Db.insert_article (article r) db = Ok db1 →
  db_keyed (foldl Db.insert_ignore_snippet db1 (snippets r))
  ∧ db_referential (foldl Db.insert_ignore_snippet db1 (snippets r)).
Proof.
  intros Hown [Hka Hks] Href Hins.
  apply insert_article_fresh in Hins as (Hfresh & Hdb1a & Hdb1s).
  destruct (insert_ignore_snippets_spec (snippets r) db1) as (Hia & _ & _ & _).
  assert (Hgrow : ∀ k, is_Some (Db.articles db !! k) →
            is_Some (Db.articles (foldl Db.insert_ignore_snippet db1
                                    (snippets r)) !! k)).
  { intros k [v Hv]. rewrite Hia, Hdb1a.
    destruct (decide (Db.article_key (article r) = k)) as [<-|Hne].
    - rewrite lookup_insert_eq. by eexists.
    - rewrite lookup_insert_ne by done. by eexists. }
  split; [split|].
  - intros k a. rewrite Hia, Hdb1a.
    destruct (decide (Db.article_key (article r) = k)) as [<-|Hne].
    + rewrite lookup_insert_eq. by intros [= <-].
    + rewrite lookup_insert_ne by done. apply Hka.
  - intros k s Hk. apply insert_ignore_snippets_values in Hk as [Hk|[_ Hk]];
      [|done]. rewrite Hdb1s in Hk. by apply Hks in Hk.
  - intros k s Hk. apply insert_ignore_snippets_values in Hk as [Hk|[Hin _]].
    + rewrite Hdb1s in Hk. by apply Hgrow, (Href k).
    + rewrite Forall_forall in Hown. rewrite (Hown s Hin), Hia, Hdb1a.
      unfold row_key. rewrite lookup_insert_eq. by eexists.
Qed.

Lemma write_rows_keeps_shape rows st res st' :
  (∀ r, r ∈ rows →
     Forall (λ s, Db.snippet_pageid s = row_key r) (snippets r)) →
  db_keyed (chdb st) → db_referential (chdb st) →
  write_rows rows st = (res, st') →
  db_keyed (chdb st') ∧ db_referential (chdb st').
Proof.
  revert st. induction rows as [|r rows IH]; intros st Hown Hk Href Hrun.
  - by injection Hrun as <- <-.
  - apply write_rows_cons in Hrun as [(db1 & Hins & Hrun)|(_ & -> & ->)];
      [|done].
    destruct (insert_keeps_shape r (chdb st) db1) as [Hk1 Href1]; try done.
    { apply Hown. by left. }
    apply (IH (set_chdb (foldl Db.insert_ignore_snippet db1 (snippets r))
                        (add_events (insert_events [r]) st)));
      [|exact Hk1|exact Href1|exact Hrun].
    intros r' Hr'. apply Hown. by right.
Qed.

Section WorkerFacts.

Variable mkid : ustring → ustring.
Variable wikipedia_domain : ustring.
Variables snippet_min_size snippet_max_size : Z.
Variable extract_snippets :
  ustring → Z → Z → result (list (ustring * list ustring)).
Variable queryGen : ustring → gen response.

Local Abbreviation page_rows' := (page_rows mkid wikipedia_domain).
Local Abbreviation build_rows' :=
  (build_rows mkid wikipedia_domain snippet_min_size snippet_max_size
              extract_snippets).
Local Abbreviation built' :=
  (built mkid wikipedia_domain snippet_min_size snippet_max_size
         extract_snippets).
Local Abbreviation construction_events' :=
  (construction_events snippet_min_size snippet_max_size extract_snippets).
Local Abbreviation extract' w :=
  (extract_snippets w snippet_min_size snippet_max_size).
Local Abbreviation work_body' :=
  (work_body mkid wikipedia_domain snippet_min_size snippet_max_size
             extract_snippets queryGen).
Local Abbreviation work' :=
  (work mkid wikipedia_domain snippet_min_size snippet_max_size
        extract_snippets queryGen).
Local Abbreviation calls' :=
  (calls mkid wikipedia_domain snippet_min_size snippet_max_size
         extract_snippets queryGen).
Local Abbreviation mapstar' :=
  (mapstar mkid wikipedia_domain snippet_min_size snippet_max_size
           extract_snippets queryGen).
Local Abbreviation worker' :=
  (worker mkid wikipedia_domain snippet_min_size snippet_max_size
          extract_snippets queryGen).
Local Abbreviation results' pageids := (query_pageids queryGen pageids).
Local Abbreviation url' t :=
  (WIKIPEDIA_WIKI_URL wikipedia_domain ++ replace (lit " ") (lit "_") t).

(** The first loop only reads the pages and calls the parser. *)
Lemma build_rows_spec results rows st :
  build_rows' results rows st
  = (match built' results with
     | Ok new => Ok (rows ++ new)
     | Raise x => Raise x
     end,
     add_events (construction_events' results) st).
Proof.
  revert rows st. induction results as [|[[pageid t] w] rest IH|x];
    intros rows st.
  - cbn. by rewrite app_nil_r, add_events_nil.
  - cbn [build_rows built construction_events].
    unfold mbind, M_bind, emit, lift. rewrite !add_event_events.
    rewrite add_events_app. destruct (extract' w) as [sn|x].
    + rewrite IH, add_events_app. destruct (built' rest) as [new|x]; [|done].
      by rewrite app_assoc.
    + reflexivity.
  - cbn. by rewrite add_events_nil.
Qed.

Lemma construction_events_are results :
  Forall is_construction (construction_events' results).
Proof.
  induction results as [|[[pageid t] w] rest IH|x]; cbn; [done| |done].
  repeat (apply Forall_cons_2; [done|]).
  by destruct (extract' w).
Qed.

(** The first loop fails when the generator raises or the parser raises
    on a page that was fetched. *)
Lemma built_raise results :
  (is_Some (thrown results)
   ∨ ∃ pageid t w x, (pageid, t, w) ∈ yielded results ∧ extract' w = Raise x) →
  ∃ x, built' results = Raise x.
Proof.
  induction results as [|[[pageid t] w] rest IH|x]; cbn [thrown yielded built].
  - intros [[? [=]]|(? & ? & ? & ? & Hin & _)]. by apply elem_of_nil in Hin.
  - intros Hfail. destruct (extract' w) as [sn|x] eqn:Hw; [|by exists x].
    destruct IH as [x ->]; [|by exists x].
    destruct Hfail as [?|(pid & t' & w' & x & Hin & Hx)]; [by left|].
    apply elem_of_cons in Hin as [[= -> -> ->]|Hin]; [congruence|].
    right. by exists pid, t', w', x.
  - intros _. by exists x.
Qed.

(** When the first loop ends, [rows] has the rows of every fetched page,
    and nothing else. *)
Lemma built_ok results rows :
  built' results = Ok rows →
  thrown results = None
  ∧ (∀ pageid t w, (pageid, t, w) ∈ yielded results →
       ∃ sn, extract' w = Ok sn ∧ page_rows' pageid t sn ⊆ rows)
  ∧ (∀ r, r ∈ rows →
       ∃ pageid t w sn, (pageid, t, w) ∈ yielded results
                        ∧ extract' w = Ok sn ∧ r ∈ page_rows' pageid t sn).
Proof.
  revert rows. induction results as [|[[pageid t] w] rest IH|x];
    intros rows; cbn [built thrown yielded]; [| |done].
  - intros [= <-]. split; [done|]. split.
    + intros ??? Hin. by apply elem_of_nil in Hin.
    + intros r Hin. by apply elem_of_nil in Hin.
  - destruct (extract' w) as [sn|x] eqn:Hw; [|done].
    destruct (built' rest) as [rows'|x]; [|done]. intros [= <-].
    destruct (IH rows' eq_refl) as (Hthrown & Hall & Honly).
    split; [done|]. split.
    + intros pid t' w' Hin. apply elem_of_cons in Hin as [[= -> -> ->]|Hin].
      * exists sn. split; [done|]. intros r Hr. apply elem_of_app. by left.
      * destruct (Hall _ _ _ Hin) as (sn' & Hsn' & Hsub).
        exists sn'. split; [done|]. intros r Hr. apply elem_of_app.
        right. by apply Hsub.
    + intros r Hr. apply elem_of_app in Hr as [Hr|Hr].
      * exists pageid, t, w, sn. split; [by left|done].
      * destruct (Honly r Hr) as (pid & t' & w' & sn' & Hin & Hrest).
        exists pid, t', w', sn'. split; [by right|done].
Qed.

Lemma built_total results :
  thrown results = None →
  (∀ pageid t w, (pageid, t, w) ∈ yielded results → ∃ sn, extract' w = Ok sn) →
  ∃ rows, built' results = Ok rows.
Proof.
  induction results as [|[[pageid t] w] rest IH|x];
    cbn [thrown yielded built]; intros Hthrown Hall; [by eexists| |done].
  destruct (Hall pageid t w) as [sn ->]; [by left|].
  destruct IH as [rows ->]; [done| |by eexists].
  intros pid t' w' Hin. apply (Hall pid t' w'). by right.
Qed.

(** [work] before it is decorated: the first loop, then the second. *)
Lemma work_body_spec pageids st :
  work_body' pageids st
  = match built' (results' pageids) with
    | Raise x =>
        (Raise x, add_events (construction_events' (results' pageids)) st)
    | Ok rows =>
        write_rows rows
          (add_events (construction_events' (results' pageids)) st)
    end.
Proof.
  unfold work_body, mbind, M_bind. rewrite build_rows_spec.
  by destruct (built' (results' pageids)).
Qed.

(** *** The rows of one page *)

Lemma snippets_rows_of_cons pageid t sec snips sn :
  snippets_rows_of mkid pageid t ((sec, snips) :: sn)
  = map (λ sni, (mkid (t ++ sni), sni, section_name_to_anchor sec, pageid))
        snips
    ++ snippets_rows_of mkid pageid t sn.
Proof. reflexivity. Qed.

Lemma snippets_rows_of_spec pageid t sn :
  map Db.snippet_text (snippets_rows_of mkid pageid t sn) = fragments sn
  ∧ Forall (λ s, Db.snippet_pageid s = pageid
                 ∧ Db.snippet_key s = mkid (t ++ Db.snippet_text s))
           (snippets_rows_of mkid pageid t sn).
Proof.
  induction sn as [|[sec snips] sn [IH1 IH2]]; [by split|].
  rewrite snippets_rows_of_cons. split.
  - rewrite map_app. unfold fragments in *. cbn [flat_map snd].
    f_equal; [|exact IH1]. rewrite map_map. apply map_id.
  - apply Forall_app. split; [|done]. apply Forall_fmap, Forall_forall.
    by intros sni _.
Qed.

Lemma page_rows_spec pageid t sn :
  (fragments sn = [] ∧ page_rows' pageid t sn = [])
  ∨ (fragments sn ≠ []
     ∧ page_rows' pageid t sn
       = [ {| article := (pageid, url' t, t);
              snippets := snippets_rows_of mkid pageid t sn |} ]).
Proof.
  destruct (snippets_rows_of_spec pageid t sn) as [Htext _].
  unfold page_rows.
  destruct (snippets_rows_of mkid pageid t sn) as [|s rows] eqn:Hrows.
  - left. by rewrite <- Htext.
  - right. split; [|done]. by rewrite <- Htext.
Qed.

(** Every dict of [rows] is the dict of a fetched page that has a
    fragment: its key is the page id and so is the page id of each of its
    snippets. *)
Lemma built_rows_of_pages results rows r :
  built' results = Ok rows → r ∈ rows →
  ∃ t w sn, (row_key r, t, w) ∈ yielded results ∧ extract' w = Ok sn
            ∧ fragments sn ≠ []
            ∧ r = {| article := (row_key r, url' t, t);
                     snippets := snippets_rows_of mkid (row_key r) t sn |}
            ∧ Forall (λ s, Db.snippet_pageid s = row_key r) (snippets r).
Proof.
  intros Hbuilt Hr.
  destruct (built_ok _ _ Hbuilt) as (_ & _ & Honly).
  destruct (Honly r Hr) as (pageid & t & w & sn & Hin & Hsn & Hrow).
  destruct (page_rows_spec pageid t sn) as [[_ Hnil]|[Hne Hone]].
  - rewrite Hnil in Hrow. by apply elem_of_nil in Hrow.
  - rewrite Hone in Hrow. apply list_elem_of_singleton in Hrow as ->.
    exists t, w, sn. cbn. split; [done|]. split; [done|]. split; [done|].
    split; [done|].
    destruct (snippets_rows_of_spec pageid t sn) as [_ Hall].
    eapply Forall_impl; [exact Hall|]. by intros s [? _].
Qed.

(** The trace of one call of [work] before it is decorated: the events
    of the first loop, then statements of [insert]. *)
Lemma work_body_trace pageids st res st' :
  work_body' pageids st = (res, st') →
  exception_count st' = exception_count st
  ∧ ((∃ x, built' (results' pageids) = Raise x ∧ res = Raise x
           ∧ st' = add_events (construction_events' (results' pageids)) st)
     ∨ (∃ rows evs,
          built' (results' pageids) = Ok rows
          ∧ write_rows rows
              (add_events (construction_events' (results' pageids)) st)
            = (res, st')
          ∧ trace st'
            = trace st ++ construction_events' (results' pageids) ++ evs
          ∧ evs `prefix_of` insert_events rows
          ∧ (res = Ok () → evs = insert_events rows)
          ∧ (∀ x, res = Raise x → x = IntegrityError))).
Proof.
  rewrite work_body_spec.
  destruct (built' (results' pageids)) as [rows|x] eqn:Hbuilt.
  - intros Hrun.
    destruct (write_rows_trace _ _ _ _ Hrun) as (Hc & Hexn & evs & Ht & Hpre & Hall).
    split; [done|]. right. exists rows, evs. cbn [trace add_events] in Ht.
    rewrite <- app_assoc in Ht. done.
  - intros [= <- <-]. split; [done|]. left. by exists x.
Qed.

(** C5. When a call of [work] ends without exception, a fetched page for
    which the parser gives at least one fragment has exactly one row of
    [articles] in the statements of the call, (pageid, url, title), and
    the rows of [snippets] with its page id are the rows of its
    fragments, one for each fragment, in order. The statement of the
    article comes right before the statement of these snippets, and both
    are in the database when the call ends. *)
Theorem work_writes_page pageids st st' pageid t w sn :
  work_body' pageids st = (Ok (), st') →
  (pageid, t, w) ∈ yielded (results' pageids) →
  extract' w = Ok sn →
  fragments sn ≠ [] →
  ∃ evs,
    trace st' = trace st ++ evs
    ∧ filter (λ a, Db.article_key a = pageid) (article_rows evs)
      = [(pageid, url' t, t)]
    ∧ filter (λ s, Db.snippet_pageid s = pageid) (snippet_rows evs)
      = snippets_rows_of mkid pageid t sn
    ∧ map Db.snippet_text (snippets_rows_of mkid pageid t sn) = fragments sn
    ∧ next_to (Execute (Db.InsertArticle (pageid, url' t, t)))
              (Execute (Db.InsertIgnoreSnippets
                          (snippets_rows_of mkid pageid t sn)))
              evs
    ∧ Db.articles (chdb st') !! pageid = Some (pageid, url' t, t)
    ∧ ∀ s, s ∈ snippets_rows_of mkid pageid t sn →
        is_Some (Db.snippets (chdb st') !! Db.snippet_key s).
Proof.
  intros Hrun Hin Hsn Hne.
  destruct (work_body_trace _ _ _ _ Hrun)
    as (_ & [(x & _ & [=] & _)|(rows & evs & Hbuilt & Hw & Ht & _ & Hall & _)]).
  rewrite (Hall eq_refl) in Ht. clear Hall evs.
  destruct (write_rows_ok _ _ _ Hw) as (Hnd & Hdb).
  set (r := {| article := (pageid, url' t, t);
               snippets := snippets_rows_of mkid pageid t sn |}).
  assert (Hr : r ∈ rows).
  { destruct (built_ok _ _ Hbuilt) as (_ & Hpages & _).
    destruct (Hpages _ _ _ Hin) as (sn' & Hsn' & Hsub).
    assert (sn' = sn) as -> by congruence.
    apply Hsub. destruct (page_rows_spec pageid t sn) as [[? _]|[_ ->]];
      [done|]. by left. }
  assert (Hown : ∀ r0, r0 ∈ rows →
            Forall (λ s, Db.snippet_pageid s = row_key r0) (snippets r0)).
  { intros r0 Hr0.
    by destruct (built_rows_of_pages _ _ _ Hbuilt Hr0)
      as (? & ? & ? & _ & _ & _ & _ & ?). }
  exists (construction_events' (results' pageids) ++ insert_events rows).
  split; [done|].
  rewrite article_rows_app, snippet_rows_app.
  unfold article_rows at 1, snippet_rows at 1.
  rewrite executed_construction by apply construction_events_are.
  cbn [omap flat_map app].
  rewrite article_rows_insert_events, snippet_rows_insert_events.
  split; [exact (filter_articles_one rows r Hnd Hr)|].
  split; [exact (filter_snippets_one rows r Hown Hnd Hr)|].
  split; [by destruct (snippets_rows_of_spec pageid t sn)|].
  destruct (Hdb r Hr) as (_ & Hart & Hsnip).
  split; [|by split].
  apply list_elem_of_split in Hr as (rows1 & rows2 & ->).
  exists (construction_events' (results' pageids) ++ insert_events rows1),
         (insert_events rows2).
  unfold insert_events. rewrite flat_map_app. cbn [flat_map].
  by rewrite <- !app_assoc.
Qed.

(** C6. A fetched page for which the parser gives no fragment adds
    nothing to [rows] and does not stop the loop, which goes on with the
    next page. When this holds for the fetched pages of one page id, no
    statement of the call has a row of [articles] or of [snippets] with
    that page id, whatever the end of the call, and [articles] has for
    that page id what it had before. *)
Theorem work_drops_empty_page pageids st res st' pageid :
  work_body' pageids st = (res, st') →
  (∀ t w, (pageid, t, w) ∈ yielded (results' pageids) →
     ∃ sn, extract' w = Ok sn ∧ fragments sn = []) →
  (∀ t w sn rest rows st0,
     extract' w = Ok sn → fragments sn = [] →
     build_rows' (Yield (pageid, t, w) rest) rows st0
     = build_rows' rest rows (add_events [Fetched pageid; Extract w] st0))
  ∧ ∃ evs,
      trace st' = trace st ++ evs
      ∧ (∀ a, a ∈ article_rows evs → Db.article_key a ≠ pageid)
      ∧ (∀ s, s ∈ snippet_rows evs → Db.snippet_pageid s ≠ pageid)
      ∧ Db.articles (chdb st') !! pageid = Db.articles (chdb st) !! pageid.
Proof.
  intros Hrun Hempty. split.
  { intros t w sn rest rows st0 Hsn Hnil. cbn [build_rows].
    unfold mbind, M_bind, emit, lift. rewrite Hsn.
    destruct (page_rows_spec pageid t sn) as [[_ ->]|[? _]]; [|done].
    by rewrite app_nil_r, !add_event_events, add_events_app. }
  destruct (work_body_trace _ _ _ _ Hrun)
    as (_ & [(x & _ & _ & ->)|(rows & evs & Hbuilt & Hw & Ht & Hpre & _ & _)]).
  - exists (construction_events' (results' pageids)). split; [done|].
    unfold article_rows, snippet_rows.
    rewrite executed_construction by apply construction_events_are.
    split; [|split; [|done]]; intros ? Hin; by apply elem_of_nil in Hin.
  - assert (Hkeys : ∀ r, r ∈ rows → row_key r ≠ pageid).
    { intros r Hr Heq.
      destruct (built_rows_of_pages _ _ _ Hbuilt Hr)
        as (t & w & sn & Hin & Hsn & Hne & _).
      rewrite Heq in Hin. destruct (Hempty _ _ Hin) as (sn' & Hsn' & Hnil).
      congruence. }
    exists (construction_events' (results' pageids) ++ evs).
    split; [done|].
    rewrite article_rows_app, snippet_rows_app.
    unfold article_rows at 1, snippet_rows at 1.
    rewrite executed_construction by apply construction_events_are.
    cbn [omap flat_map app].
    destruct (prefix_rows _ _ Hpre) as [Ha Hs].
    rewrite article_rows_insert_events in Ha.
    rewrite snippet_rows_insert_events in Hs.
    split; [|split].
    + intros a Hin. apply Ha, list_elem_of_fmap in Hin as (r & -> & Hr).
      by apply Hkeys.
    + intros s0 Hin. apply Hs in Hin.
      apply list_elem_of_In, in_flat_map in Hin as (r & Hr & Hs0).
      apply list_elem_of_In in Hr, Hs0.
      destruct (built_rows_of_pages _ _ _ Hbuilt Hr)
        as (_ & _ & _ & _ & _ & _ & _ & Hown).
      rewrite Forall_forall in Hown. rewrite (Hown _ Hs0). by apply Hkeys.
    + destruct (write_rows_db _ _ _ _ Hw) as (_ & _ & Hframe & _).
      rewrite Hframe; [done|]. intros Hin.
      apply list_elem_of_fmap in Hin as (r & -> & Hr). by eapply Hkeys.
Qed.

(** The wrapper around one call of [work]. *)
Lemma work_spec pageids st :
  work' pageids st
  = match work_body' pageids st with
    | (Ok u, st1) => (Ok (Some u), st1)
    | (Raise x, st1) =>
        (if exception_count st + 1 >? MAX_EXCEPTIONS_PER_SUBPROCESS
         then Raise x else Ok None,
         set_exception_count (exception_count st + 1)
           (add_event (PrintExc x) st1))
    end.
Proof.
  unfold work, with_max_exceptions.
  destruct (work_body' pageids st) as [[u|x] st1] eqn:Hrun; [done|].
  apply work_body_trace in Hrun as [Hcount _].
  cbn [exception_count set_exception_count add_event]. rewrite Hcount.
  by destruct (exception_count st + 1 >? MAX_EXCEPTIONS_PER_SUBPROCESS).
Qed.

(** C9. In every call of [work], whatever the batch and the state, every
    page is fetched and its rows are built before the first statement is
    sent: the trace of the call is the events of the first loop over all
    the pages, then statements only. And when the generator raises, or
    the parser raises on a fetched page, the call raises, its trace has
    no statement and the database is as it was before the call, also
    behind the wrapper: the rows of the pages that were done before the
    exception are not written. *)
Theorem work_builds_before_it_writes pageids st :
  (∃ evs_c evs_w,
     trace (work_body' pageids st).2 = trace st ++ evs_c ++ evs_w
     ∧ evs_c = construction_events' (results' pageids)
     ∧ Forall is_construction evs_c ∧ Forall is_write evs_w)
  ∧ ((is_Some (thrown (results' pageids))
      ∨ ∃ pageid t w x,
          (pageid, t, w) ∈ yielded (results' pageids) ∧ extract' w = Raise x) →
     ∃ x st' evs,
       work_body' pageids st = (Raise x, st')
       ∧ trace st' = trace st ++ evs
       ∧ executed evs = []
       ∧ chdb st' = chdb st
       ∧ chdb (work' pageids st).2 = chdb st
       ∧ executed (drop (length (trace st)) (trace (work' pageids st).2))
         = []).
Proof.
  split.
  - destruct (work_body' pageids st) as [res st'] eqn:Hrun.
    destruct (work_body_trace _ _ _ _ Hrun)
      as (_ & [(x & _ & _ & ->)|(rows & evs & _ & _ & Ht & Hpre & _ & _)]).
    + exists (construction_events' (results' pageids)), [].
      rewrite app_nil_r. split; [done|]. split; [done|].
      split; [apply construction_events_are|constructor].
    + exists (construction_events' (results' pageids)), evs.
      split; [done|]. split; [done|].
      split; [apply construction_events_are|].
      eapply prefix_is_write; [done|apply insert_events_are_writes].
  - intros Hfail. destruct (built_raise _ Hfail) as [x Hx].
    pose proof (work_body_spec pageids st) as Hbody. rewrite Hx in Hbody.
    exists x, (add_events (construction_events' (results' pageids)) st),
           (construction_events' (results' pageids)).
    assert (Hnone : executed (construction_events' (results' pageids)) = [])
      by apply executed_construction, construction_events_are.
    split; [done|]. split; [done|]. split; [done|]. split; [done|].
    rewrite work_spec, Hbody.
    cbn [snd chdb trace set_exception_count add_event add_events].
    split; [done|]. rewrite <- app_assoc, drop_app_length, executed_app.
    by rewrite Hnone.
Qed.

(** C7. The statement of the snippets never fails: a row whose id the
    table has is ignored and the row of the table stays, so that the same
    statement sent again changes nothing; and the id of a row is [mkid]
    of the title followed by the text of the fragment, whatever the page
    id, the section and the call. The statement of the article fails when
    the table has its page id: if the first loop of a call ends and one
    of its pages with a fragment has a page id that [articles] has, the
    call raises [IntegrityError], and the wrapper prints it, counts it
    and swallows or raises it as any other exception of a batch. *)
Theorem insert_conflicts pageids st pageid t w sn :
  thrown (results' pageids) = None →
  (∀ pid t0 w0, (pid, t0, w0) ∈ yielded (results' pageids) →
     ∃ sn0, extract' w0 = Ok sn0) →
  (pageid, t, w) ∈ yielded (results' pageids) →
  extract' w = Ok sn →
  fragments sn ≠ [] →
  is_Some (Db.articles (chdb st) !! pageid) →
  (∀ rs db, ∃ db',
     Db.run (Db.InsertIgnoreSnippets rs) db = Ok db'
     ∧ (∀ k v, Db.snippets db !! k = Some v → Db.snippets db' !! k = Some v)
     ∧ Db.run (Db.InsertIgnoreSnippets rs) db' = Ok db')
  ∧ (∀ pid t0 sn0 s, s ∈ snippets_rows_of mkid pid t0 sn0 →
       Db.snippet_key s = mkid (t0 ++ Db.snippet_text s))
  ∧ ∃ st1,
      work_body' pageids st = (Raise IntegrityError, st1)
      ∧ work' pageids st
        = (if exception_count st + 1 >? MAX_EXCEPTIONS_PER_SUBPROCESS
           then Raise IntegrityError else Ok None,
           set_exception_count (exception_count st + 1)
             (add_event (PrintExc IntegrityError) st1)).
Proof.
  intros Hthrown Hall Hin Hsn Hne Hdup. split; [|split].
  - intros rs db. exists (foldl Db.insert_ignore_snippet db rs).
    destruct (insert_ignore_snippets_spec rs db) as (_ & Hkeep & _ & Hhas).
    split; [done|]. split; [done|]. cbn [Db.run]. f_equal.
    by apply insert_ignore_snippets_again.
  - intros pid t0 sn0 s Hs.
    destruct (snippets_rows_of_spec pid t0 sn0) as [_ Hrows].
    rewrite Forall_forall in Hrows. by destruct (Hrows s Hs).
  - destruct (built_total _ Hthrown Hall) as [rows Hbuilt].
    set (r := {| article := (pageid, url' t, t);
                 snippets := snippets_rows_of mkid pageid t sn |}).
    assert (Hr : r ∈ rows).
    { destruct (built_ok _ _ Hbuilt) as (_ & Hpages & _).
      destruct (Hpages _ _ _ Hin) as (sn' & Hsn' & Hsub).
      assert (sn' = sn) as -> by congruence.
      apply Hsub. destruct (page_rows_spec pageid t sn) as [[? _]|[_ ->]];
        [done|]. by left. }
    destruct (write_rows_duplicate rows
                (add_events (construction_events' (results' pageids)) st) r Hr)
      as [st1 Hw]; [done|].
    exists st1. pose proof (work_body_spec pageids st) as Hbody.
    rewrite Hbuilt, Hw in Hbody. split; [done|].
    by rewrite work_spec, Hbody.
Qed.

(** *** The exception budget *)

(** One call of [work] on a state whose counter is [exception_count st]. *)
Lemma work_result pageids st :
  exception_count (work' pageids st).2
  = exception_count st + (if failed (work' pageids st).1 then 1 else 0)
  ∧ (failed (work' pageids st).1 = true →
       (exception_count st + 1 <= 5 → (work' pageids st).1 = Ok None)
       ∧ (5 < exception_count st + 1 → ∃ x, (work' pageids st).1 = Raise x)).
Proof.
  rewrite work_spec.
  destruct (work_body' pageids st) as [[[]|x] st1] eqn:Hrun;
    apply work_body_trace in Hrun as [Hcount _].
  - cbn. split; [lia|done].
  - unfold MAX_EXCEPTIONS_PER_SUBPROCESS. cbn [fst snd exception_count
      set_exception_count].
    destruct (Z.gtb_spec (exception_count st + 1) 5); cbn [failed].
    + split; [done|]. intros _. split; [lia|]. intros _. by exists x.
    + split; [done|]. intros _. split; [done|lia].
Qed.

Lemma calls_cons pageids tasks st :
  calls' (pageids :: tasks) st
  = ((work' pageids st).1 :: (calls' tasks (work' pageids st).2).1,
     (calls' tasks (work' pageids st).2).2).
Proof.
  cbn [calls]. destruct (work' pageids st) as [r st1]. cbn [fst snd].
  by destruct (calls' tasks st1).
Qed.

(** The counter after some calls is the counter before them plus the
    number of calls that failed, and the call that brings the counter
    above the limit, and every failed call after it, raises. *)
Lemma calls_results tasks st :
  exception_count (calls' tasks st).2
  = exception_count st + Z.of_nat (failures (calls' tasks st).1)
  ∧ ∀ i r, (calls' tasks st).1 !! i = Some r → failed r = true →
      (exception_count st
         + Z.of_nat (failures (take (S i) (calls' tasks st).1)) <= 5 →
       r = Ok None)
      ∧ (5 < exception_count st
             + Z.of_nat (failures (take (S i) (calls' tasks st).1)) →
         ∃ x, r = Raise x).
Proof.
  revert st. induction tasks as [|pageids tasks IH]; intros st.
  - cbn. split; [unfold failures; cbn; lia|]. by intros i r [=].
  - rewrite calls_cons. cbn [fst snd].
    destruct (work_result pageids st) as [Hcount Hres].
    destruct (IH (work' pageids st).2) as [IHcount IHres].
    split.
    + rewrite IHcount, Hcount, failures_cons.
      destruct (failed (work' pageids st).1); lia.
    + intros [|i] r Hi Hfailed.
      * injection Hi as <-. cbn [take]. rewrite failures_cons, Hfailed.
        destruct (Hres Hfailed) as [Hlow Hhigh].
        rewrite take_0. change (failures []) with O.
        split; intros Hn; [apply Hlow|apply Hhigh]; lia.
      * cbn [lookup list_lookup] in Hi. destruct (IHres i r Hi Hfailed)
          as [Hlow Hhigh].
        rewrite Hcount in Hlow, Hhigh.
        cbn [take]. rewrite failures_cons.
        destruct (failed (work' pageids st).1);
          split; intros Hn; [apply Hlow|apply Hhigh|apply Hlow|apply Hhigh];
          lia.
Qed.

(** *** The loop of the pool in the process *)

Lemma calls_app tasks1 tasks2 st :
  calls' (tasks1 ++ tasks2) st
  = ((calls' tasks1 st).1 ++ (calls' tasks2 (calls' tasks1 st).2).1,
     (calls' tasks2 (calls' tasks1 st).2).2).
Proof.
  revert st. induction tasks1 as [|pageids tasks1 IH]; intros st.
  - cbn. by destruct (calls' tasks2 st).
  - cbn [app]. rewrite !calls_cons. cbn [fst snd]. by rewrite IH.
Qed.

Lemma mapstar_cons pageids chunk st :
  mapstar' (pageids :: chunk) st
  = match work' pageids st with
    | (Ok r, st1) =>
        match mapstar' chunk st1 with
        | (Ok rs, st2) => (Ok (r :: rs), st2)
        | (Raise x, st2) => (Raise x, st2)
        end
    | (Raise x, st1) => (Raise x, st1)
    end.
Proof.
  cbn [mapstar]. unfold mbind, M_bind, mret, M_ret.
  destruct (work' pageids st) as [[r|x] st1]; [|done].
  by destruct (mapstar' chunk st1) as [[rs|x] st2].
Qed.

Lemma worker_cons chunk chunks st :
  worker' (chunk :: chunks) st
  = ((mapstar' chunk st).1 :: (worker' chunks (mapstar' chunk st).2).1,
     (worker' chunks (mapstar' chunk st).2).2).
Proof.
  cbn [worker]. destruct (mapstar' chunk st) as [r st1]. cbn [fst snd].
  by destruct (worker' chunks st1).
Qed.

(** A chunk of one batch is one call of [work]. *)
Lemma mapstar_one pageids st :
  mapstar' [pageids] st = (reported (work' pageids st).1, (work' pageids st).2).
Proof.
  rewrite mapstar_cons. by destruct (work' pageids st) as [[r|x] st1].
Qed.

(** The calls of [work] that a chunk makes are those of its first
    batches, up to the first call that raises. *)
Lemma mapstar_calls chunk st :
  ∃ n, (mapstar' chunk st).2 = (calls' (take n chunk) st).2.
Proof.
  revert st. induction chunk as [|pageids chunk IH]; intros st.
  - by exists O.
  - rewrite mapstar_cons.
    destruct (work' pageids st) as [[r|x] st1] eqn:Hwork.
    + destruct (IH st1) as [n Hn]. exists (S n). cbn [take].
      rewrite calls_cons, Hwork. cbn [fst snd]. rewrite <- Hn.
      by destruct (mapstar' chunk st1) as [[rs|x] st2].
    + exists 1%nat. cbn [take]. rewrite take_0, calls_cons, Hwork. done.
Qed.

(** Every task is run, on the state that the tasks before it left,
    whatever their results were. *)
Lemma worker_lookup chunks st j chunk :
  chunks !! j = Some chunk →
  (worker' chunks st).1 !! j
  = Some (mapstar' chunk (worker' (take j chunks) st).2).1.
Proof.
  revert st j. induction chunks as [|c chunks IH]; intros st j Hj; [done|].
  rewrite worker_cons. destruct j as [|j].
  - by injection Hj as ->.
  - cbn [fst lookup list_lookup take] in *. rewrite worker_cons. cbn [snd].
    by apply IH.
Qed.

Lemma worker_singletons tasks st :
  worker' (one_each tasks) st
  = (reported <$> (calls' tasks st).1, (calls' tasks st).2).
Proof.
  unfold one_each.
  revert st. induction tasks as [|pageids tasks IH]; intros st; [done|].
  rewrite fmap_cons, worker_cons, calls_cons, mapstar_one. cbn [fst snd].
  by rewrite IH.
Qed.

Lemma worker_length chunks st :
  length (worker' chunks st).1 = length chunks.
Proof.
  revert st. induction chunks as [|chunk chunks IH]; intros st; [done|].
  rewrite worker_cons. cbn [fst length]. by rewrite IH.
Qed.

(** What a process does on its tasks is a run of calls of [work] on
    some of the batches of the tasks, in their order. *)
Lemma worker_calls chunks st :
  ∃ tasks, tasks `sublist_of` concat chunks
           ∧ (worker' chunks st).2 = (calls' tasks st).2.
Proof.
  revert st. induction chunks as [|chunk chunks IH]; intros st.
  - by exists [].
  - rewrite worker_cons. cbn [snd concat].
    destruct (mapstar_calls chunk st) as [n Hn].
    destruct (IH (mapstar' chunk st).2) as (tasks & Hsub & Hrun).
    exists (take n chunk ++ tasks). split.
    + apply sublist_app; [apply sublist_take|done].
    + rewrite calls_app. cbn [snd]. by rewrite <- Hn.
Qed.



(** *** More on the two loops of [work] *)

Lemma write_rows_app rows1 rows2 st :
  write_rows (rows1 ++ rows2) st
  = match write_rows rows1 st with
    | (Ok _, st1) => write_rows rows2 st1
    | (Raise x, st1) => (Raise x, st1)
    end.
Proof.
  revert st. induction rows1 as [|r rows1 IH]; intros st; [done|].
  unfold write_rows in *. cbn [app for_each]. unfold mbind, M_bind.
  destruct (execute_with_retry insert r st) as [[[]|x] st1]; [apply IH|done].
Qed.

(** X7. The second loop stops at the first article whose page id the
    table has: the rows of the dicts before it have been written and
    stay written, the statement of that article is the last one sent,
    and nothing is sent for the dicts after it. *)
Theorem write_rows_stops rows1 r rows2 st st1 :
  write_rows rows1 st = (Ok (), st1) →
  is_Some (Db.articles (chdb st1) !! row_key r) →
  write_rows (rows1 ++ r :: rows2) st
  = (Raise IntegrityError,
     add_events [Execute (Db.InsertArticle (article r))] st1)
  ∧ trace st1 = trace st ++ insert_events rows1
  ∧ ∀ r1, r1 ∈ rows1 →
      Db.articles (chdb st1) !! row_key r1 = Some (article r1)
      ∧ ∀ s, s ∈ snippets r1 →
          is_Some (Db.snippets (chdb st1) !! Db.snippet_key s).
Proof.
  intros Hw Hdup. split; [|split].
  - rewrite write_rows_app, Hw.
    destruct (write_rows (r :: rows2) st1) as [res st2] eqn:Hw2.
    apply write_rows_cons in Hw2 as [(db1 & Hins & _)|(_ & -> & ->)]; [|done].
    apply insert_article_fresh in Hins as [Hnone _].
    destruct Hdup as [v Hv]. unfold row_key in Hv. congruence.
  - destruct (write_rows_trace _ _ _ _ Hw) as (_ & _ & evs & Htrace & _ & Hall).
    by rewrite (Hall eq_refl) in Htrace.
  - intros r1 Hr1. destruct (write_rows_ok _ _ _ Hw) as [_ Hrows].
    by destruct (Hrows r1 Hr1) as (_ & ? & ?).
Qed.

(** What one call of [work] before it is decorated does to the
    database. *)
Lemma work_body_db pageids st res st' :
  work_body' pageids st = (res, st') →
  (∀ k v, Db.articles (chdb st) !! k = Some v →
     Db.articles (chdb st') !! k = Some v)
  ∧ (∀ k v, Db.snippets (chdb st) !! k = Some v →
       Db.snippets (chdb st') !! k = Some v)
  ∧ (db_keyed (chdb st) → db_referential (chdb st) →
     db_keyed (chdb st') ∧ db_referential (chdb st')).
Proof.
  intros Hrun. destruct (work_body_trace _ _ _ _ Hrun)
    as (_ & [(x & _ & _ & ->)|(rows & evs & Hbuilt & Hw & _)]); [done|].
  destruct (write_rows_db _ _ _ _ Hw) as (Ha & Hs & _ & _).
  split; [done|]. split; [done|]. intros Hk Href.
  apply (write_rows_keeps_shape rows
           (add_events (construction_events' (results' pageids)) st) res st');
    [|exact Hk|exact Href|exact Hw].
  intros r Hr. by destruct (built_rows_of_pages _ _ _ Hbuilt Hr)
    as (? & ? & ? & _ & _ & _ & _ & ?).
Qed.

Lemma work_chdb pageids st :
  chdb (work' pageids st).2 = chdb (work_body' pageids st).2.
Proof.
  rewrite work_spec. by destruct (work_body' pageids st) as [[u|x] st1].
Qed.

(** X8. A call of [work], whatever its end, never removes or changes a
    row that the database has: both tables only grow. *)
Theorem work_append_only pageids st :
  let st' :=
    (work mkid wikipedia_domain snippet_min_size snippet_max_size
          extract_snippets queryGen pageids st).2 in
  (∀ k v, Db.articles (chdb st) !! k = Some v →
     Db.articles (chdb st') !! k = Some v)
  ∧ (∀ k v, Db.snippets (chdb st) !! k = Some v →
       Db.snippets (chdb st') !! k = Some v).
Proof.
  cbv zeta.
  rewrite work_chdb.
  destruct (work_body' pageids st) as [res st'] eqn:Hrun.
  by destruct (work_body_db _ _ _ _ Hrun) as (? & ? & _).
Qed.

(** X9. In a database where every row is under its own key and every
    snippet has the page id of an article, a call of [work] leaves a
    database of the same kind, whatever its end. *)
Theorem work_keeps_shape pageids st :
  db_keyed (chdb st) → db_referential (chdb st) →
  db_keyed (chdb (work' pageids st).2)
  ∧ db_referential (chdb (work' pageids st).2).
Proof.
  rewrite work_chdb.
  destruct (work_body' pageids st) as [res st'] eqn:Hrun.
  intros Hk Href. destruct (work_body_db _ _ _ _ Hrun) as (_ & _ & Hshape).
  by apply Hshape.
Qed.

(** X10. A batch cannot be processed twice: when a call of [work] has
    ended without exception and one of its pages has a fragment, the same
    call on the state that it left raises [IntegrityError] on its first
    article and leaves the database as it is. *)
Theorem work_again_fails pageids st st' pageid t w sn :
  work_body' pageids st = (Ok (), st') →
  (pageid, t, w) ∈ yielded (results' pageids) →
  extract' w = Ok sn →
  fragments sn ≠ [] →
  ∃ st'' a,
    work_body' pageids st' = (Raise IntegrityError, st'')
    ∧ chdb st'' = chdb st'
    ∧ executed (drop (length (trace st')) (trace st''))
      = [Db.InsertArticle a].
Proof.
  intros Hrun Hin Hsn Hne.
  destruct (work_body_trace _ _ _ _ Hrun)
    as (_ & [(x & _ & [=] & _)|(rows & evs & Hbuilt & Hw & _)]).
  destruct (write_rows_ok _ _ _ Hw) as (_ & Hdb).
  assert (Hrows : rows ≠ []).
  { destruct (built_ok _ _ Hbuilt) as (_ & Hpages & _).
    destruct (Hpages _ _ _ Hin) as (sn' & Hsn' & Hsub).
    assert (sn' = sn) as -> by congruence.
    destruct (page_rows_spec pageid t sn) as [[? _]|[_ Hone]]; [done|].
    intros ->. rewrite Hone in Hsub.
    specialize (Hsub _ (list_elem_of_here _ _)). by apply elem_of_nil in Hsub. }
  destruct rows as [|r rows]; [done|].
  destruct (Hdb r) as (_ & Hstored & _); [by left|].
  pose proof (work_body_spec pageids st') as Hbody. rewrite Hbuilt in Hbody.
  destruct (write_rows_stops [] r rows
              (add_events (construction_events' (results' pageids)) st')
              (add_events (construction_events' (results' pageids)) st'))
    as (Hstop & _); [done|by eexists|].
  cbn [app] in Hstop. rewrite Hstop in Hbody.
  eexists _, (article r). split; [exact Hbody|]. split; [done|].
  cbn [trace add_events]. rewrite <- app_assoc, drop_app_length.
  rewrite executed_app.
  by rewrite executed_construction by apply construction_events_are.
Qed.

Lemma built_fetched results rows :
  built' results = Ok rows →
  map article rows
  = fetched_articles mkid wikipedia_domain snippet_min_size snippet_max_size
      extract_snippets (yielded results)
  ∧ flat_map snippets rows
    = fetched_snippets mkid snippet_min_size snippet_max_size
        extract_snippets (yielded results).
Proof.
  revert rows. induction results as [|[[pageid t] w] rest IH|x];
    intros rows; cbn [built yielded]; [by intros [= <-]| |done].
  unfold fetched_articles, fetched_snippets. cbn [flat_map].
  destruct (extract' w) as [sn|x]; [|done].
  destruct (built' rest) as [rows'|x]; [|done]. intros [= <-].
  destruct (IH rows' eq_refl) as [IHa IHs].
  rewrite map_app, flat_map_app, IHa, IHs. split; [done|]. f_equal.
  unfold page_rows.
  destruct (snippets_rows_of mkid pageid t sn); [done|].
  cbn. by rewrite app_nil_r.
Qed.

(** X11. When a call of [work] ends without exception, the rows that it
    has sent are those of the fetched pages and no other, in the order in
    which the pages were fetched: one row of [articles] for each page
    with a fragment, and the rows of [snippets] in the order of the
    sections and fragments of each page. *)
Theorem work_sends_fetched pageids st st' :
  work_body' pageids st = (Ok (), st') →
  ∃ evs,
    trace st' = trace st ++ evs
    ∧ article_rows evs
      = fetched_articles mkid wikipedia_domain snippet_min_size
          snippet_max_size extract_snippets (yielded (results' pageids))
    ∧ snippet_rows evs
      = fetched_snippets mkid snippet_min_size snippet_max_size
          extract_snippets (yielded (results' pageids)).
Proof.
  intros Hrun. destruct (work_body_trace _ _ _ _ Hrun)
    as (_ & [(x & _ & [=] & _)|(rows & evs & Hbuilt & _ & Ht & _ & Hall & _)]).
  rewrite (Hall eq_refl) in Ht.
  exists (construction_events' (results' pageids) ++ insert_events rows).
  split; [done|].
  rewrite article_rows_app, snippet_rows_app.
  unfold article_rows at 1, snippet_rows at 1.
  rewrite executed_construction by apply construction_events_are.
  cbn [omap flat_map app].
  rewrite article_rows_insert_events, snippet_rows_insert_events.
  by apply built_fetched.
Qed.

(** X12. The budget of a process never comes back: after a call that
    has raised, every later call whose body raises does raise too. *)
Theorem worker_budget_spent db tasks i j r r' :
  (i ≤ j)%nat →
  (calls' tasks (initializer db)).1 !! i = Some r →
  is_raise r = true →
  (calls' tasks (initializer db)).1 !! j = Some r' →
  failed r' = true →
  ∃ x, r' = Raise x.
Proof.
  intros Hij Hi Hr Hj Hfailed.
  destruct (calls_results tasks (initializer db)) as [_ Hres].
  cbn [exception_count initializer] in Hres.
  destruct r as [o|x]; [done|].
  destruct (Hres i (Raise x) Hi eq_refl) as [Hlow _].
  destruct (Hres j r' Hj Hfailed) as [_ Hhigh]. apply Hhigh.
  assert (Hmono : (failures (take (S i) (calls' tasks (initializer db)).1)
                   ≤ failures (take (S j) (calls' tasks (initializer db)).1))%nat).
  { replace (take (S i) (calls' tasks (initializer db)).1)
      with (take (S i) (take (S j) (calls' tasks (initializer db)).1)).
    - apply failures_take_le.
    - rewrite take_take. f_equal. lia. }
  destruct (decide (failures (take (S i) (calls' tasks (initializer db)).1)
                    ≤ 5)%nat) as [Hle|Hgt]; [|lia].
  discriminate Hlow. lia.
Qed.

Lemma write_rows_size rows st st' :
  write_rows rows st = (Ok (), st') →
  size (Db.articles (chdb st')) = (size (Db.articles (chdb st)) + length rows)%nat
  ∧ (size (Db.snippets (chdb st'))
     ≤ size (Db.snippets (chdb st)) + length (flat_map snippets rows))%nat.
Proof.
  revert st. induction rows as [|r rows IH]; intros st Hrun.
  - injection Hrun as <-. cbn. lia.
  - apply write_rows_cons in Hrun as [(db1 & Hins & Hrun)|(_ & [=] & _)].
    apply IH in Hrun as [IHa IHs]. cbn [chdb set_chdb] in *.
    apply insert_article_fresh in Hins as (Hfresh & Hdb1a & Hdb1s).
    destruct (insert_ignore_snippets_spec (snippets r) db1) as (Hia & _).
    rewrite Hia, Hdb1a, map_size_insert_None in IHa by done.
    split; [cbn [length]; lia|].
    assert (Hfold : ∀ rs db,
      (size (Db.snippets (foldl Db.insert_ignore_snippet db rs))
       ≤ size (Db.snippets db) + length rs)%nat).
    { clear. induction rs as [|s rs IH]; intros db; cbn [foldl length]; [lia|].
      specialize (IH (Db.insert_ignore_snippet db s)).
      assert ((size (Db.snippets (Db.insert_ignore_snippet db s))
               ≤ S (size (Db.snippets db)))%nat); [|lia].
      unfold Db.insert_ignore_snippet.
      destruct (Db.snippets db !! Db.snippet_key s) eqn:Hs; [lia|].
      cbn. by rewrite map_size_insert_None. }
    specialize (Hfold (snippets r) db1). rewrite Hdb1s in Hfold.
    cbn [flat_map]. rewrite length_app. lia.
Qed.

(** X18. When the fetch of a batch ends without an exception and the
    parser returns no fragment for any of the fetched pages, the call is
    not a failure and changes nothing: it returns what the body returns,
    the counter and the database are as before and no statement is sent;
    its events are the two of the first loop for each fetched page. *)
Theorem work_without_fragments pageids st :
  thrown (results' pageids) = None →
  (∀ pageid t w, (pageid, t, w) ∈ yielded (results' pageids) →
     ∃ sn, extract' w = Ok sn ∧ fragments sn = []) →
  ∃ evs,
    work' pageids st = (Ok (Some ()), add_events evs st)
    ∧ executed evs = []
    ∧ length evs = (2 * length (yielded (results' pageids)))%nat.
Proof.
  intros Hthrown Hempty.
  assert (Hbuilt : built' (results' pageids) = Ok []
                   ∧ length (construction_events' (results' pageids))
                     = (2 * length (yielded (results' pageids)))%nat).
  { induction (results' pageids) as [|[[pageid t] w] rest IH|x];
      cbn [built construction_events yielded thrown length] in *;
      [done| |done].
    destruct (Hempty pageid t w) as (sn & -> & Hnil); [by left|].
    destruct IH as [-> ->]; [done| |].
    { intros pid t' w' Hin. apply (Hempty pid t' w'). by right. }
    destruct (page_rows_spec pageid t sn) as [[_ ->]|[? _]]; [|done].
    split; [done|]. lia. }
  destruct Hbuilt as [Hbuilt Hlen].
  exists (construction_events' (results' pageids)).
  rewrite work_spec, work_body_spec, Hbuilt. cbn.
  split; [done|]. split; [|done].
  apply executed_construction, construction_events_are.
Qed.

(** X20. When a call of [work] ends without exception, [articles] has
    one more row for each fetched page that has a fragment, and
    [snippets] has at most one more row for each fragment. *)
Theorem work_adds_articles pageids st st' :
  work_body' pageids st = (Ok (), st') →
  size (Db.articles (chdb st'))
  = (size (Db.articles (chdb st))
     + length (fetched_articles mkid wikipedia_domain snippet_min_size
                 snippet_max_size extract_snippets
                 (yielded (results' pageids))))%nat
  ∧ (size (Db.snippets (chdb st'))
     ≤ size (Db.snippets (chdb st))
       + length (fetched_snippets mkid snippet_min_size snippet_max_size
                   extract_snippets (yielded (results' pageids))))%nat.
Proof.
  intros Hrun. destruct (work_body_trace _ _ _ _ Hrun)
    as (_ & [(x & _ & [=] & _)|(rows & evs & Hbuilt & Hw & _)]).
  destruct (built_fetched _ _ Hbuilt) as [<- <-].
  apply write_rows_size in Hw as [Ha Hs]. cbn [chdb add_events] in *.
  by rewrite length_map.
Qed.

End WorkerFacts.

(** ** The pool *)

Lemma main_ends_with_join {T : Type} pageids (timeout : T) ready :
  main pageids timeout ready
  = [ResetScratchDb; GetParser; PoolCreate; MapAsync (make_tasks pageids);
     PoolClose; ResultWait timeout]
    ++ (if ready then []
        else [LogInfo (lit "timeout, canceling the process pool!");
              PoolTerminate])
    ++ [PoolJoin; LogInfo (lit "all done.")].
Proof. unfold main, parse_live. by destruct ready. Qed.

(** The calls of the script in their order. When the wait ends and the
    result is not ready, the main process logs the timeout and terminates
    the pool at once: it does not wait a second time. In every run, ready
    or not, the last two things that the script does are to join the pool
    and then to report that it is done; the pool is joined once, after it
    was closed, and after it was terminated when it was. A run whose
    result is ready does not terminate the pool. *)
Lemma main_calls_in_order {T : Type} (pageids : gset ustring) (timeout : T)
    (ready : bool) :
  (ready = false →
     next_to (ResultWait timeout)
             (LogInfo (lit "timeout, canceling the process pool!"))
             (main pageids timeout ready)
     ∧ next_to (LogInfo (lit "timeout, canceling the process pool!"))
               PoolTerminate (main pageids timeout ready)
     ∧ next_to PoolTerminate PoolJoin (main pageids timeout ready))
  ∧ (ready = true → PoolTerminate ∉ main pageids timeout ready)
  ∧ (∃ l, main pageids timeout ready
          = l ++ [PoolJoin; LogInfo (lit "all done.")]
          ∧ (PoolJoin ∉ l)
          ∧ (PoolClose ∈ l)
          ∧ (∀ l1 l2, l = l1 ++ ResultWait timeout :: l2 →
               ∀ t, (ResultWait t ∉ l1) ∧ (ResultWait t ∉ l2)))
  ∧ before PoolClose PoolJoin (main pageids timeout ready).
Proof.
  rewrite main_ends_with_join.
  set (msg := lit "timeout, canceling the process pool!").
  set (pre := [ResetScratchDb; GetParser; PoolCreate;
               MapAsync (make_tasks pageids); PoolClose]
             : list (main_event T)).
  assert (Hnot : ∀ (ev : main_event T) l, Forall (λ ev', ev' ≠ ev) l → ev ∉ l).
  { intros ev l Hl Hin. rewrite Forall_forall in Hl. by apply (Hl ev). }
  split; [|split; [|split]].
  - intros ->. split; [|split].
    + exists pre, [PoolTerminate; PoolJoin; LogInfo (lit "all done.")]. done.
    + exists (pre ++ [ResultWait timeout]),
             [PoolJoin; LogInfo (lit "all done.")]. done.
    + exists (pre ++ [ResultWait timeout; LogInfo msg]),
             [LogInfo (lit "all done.")]. done.
  - intros ->. apply Hnot. by repeat (apply Forall_cons_2; [done|]).
  - exists ((pre ++ [ResultWait timeout])
            ++ (if ready then [] else [LogInfo msg; PoolTerminate])).
    split; [by destruct ready|]. split; [|split].
    + apply Hnot. apply Forall_app. split.
      * by repeat (apply Forall_cons_2; [done|]).
      * destruct ready; by repeat (apply Forall_cons_2; [done|]).
    + apply elem_of_app. left. unfold pre.
      do 4 apply list_elem_of_further. apply list_elem_of_here.
    + intros l1 l2 Hl t.
      assert (Hshape : ∀ (a b : list (main_event T)) x,
                Forall (λ ev, ∀ t, ev ≠ ResultWait t) a →
                Forall (λ ev, ∀ t, ev ≠ ResultWait t) b →
                a ++ ResultWait x :: b = l1 ++ ResultWait timeout :: l2 →
                l1 = a ∧ l2 = b).
      { clear. intros a. revert l1.
        induction a as [|ev a IH]; intros [|ev1 l1] b x Ha Hb Heq.
        - by injection Heq as _ <-.
        - injection Heq as <- ->. exfalso.
          rewrite Forall_forall in Hb.
          refine (Hb (ResultWait timeout) _ timeout eq_refl).
          apply elem_of_app. right. by left.
        - injection Heq as -> _. apply Forall_cons in Ha as [Ha _].
          by destruct (Ha timeout).
        - injection Heq as <- Heq. apply Forall_cons in Ha as [_ Ha].
          destruct (IH l1 b x Ha Hb Heq) as [-> ->]. done. }
      destruct (Hshape pre (if ready then [] else [LogInfo msg; PoolTerminate])
                  timeout) as [-> ->].
      * by repeat (apply Forall_cons_2; [done|]).
      * destruct ready; by repeat (apply Forall_cons_2; [done|]).
      * rewrite <- Hl. by rewrite <- app_assoc.
      * split; apply Hnot.
        -- by repeat (apply Forall_cons_2; [done|]).
        -- destruct ready; by repeat (apply Forall_cons_2; [done|]).
  - exists ([ResetScratchDb; GetParser; PoolCreate;
             MapAsync (make_tasks pageids)] : list (main_event T)),
           ([ResultWait timeout]
            ++ (if ready then [] else [LogInfo msg; PoolTerminate])),
           [LogInfo (lit "all done.")].
    by destruct ready.
Qed.

(** *** The script against the pool *)

Lemma parse_live_split pageids timeout ready :
  parse_live pageids timeout ready
  = parse_live_start pageids timeout ++ parse_live_end ready.
Proof. unfold parse_live, parse_live_start, parse_live_end. done. Qed.

Lemma run_app tm evs1 evs2 p :
  Pool.run tm (evs1 ++ evs2) p = Pool.run tm evs1 p ≫= Pool.run tm evs2.
Proof.
  revert p. induction evs1 as [|ev evs1 IH]; intros p; [done|].
  cbn [app Pool.run]. destruct (Pool.call tm ev p) as [p'|]; [apply IH|done].
Qed.

Lemma last_finish_ge tm f : f ∈ Pool.finish tm → f ≤ Pool.last_finish tm.
Proof.
  unfold Pool.last_finish. induction (Pool.finish tm) as [|f0 l IH].
  - by intros ?%elem_of_nil.
  - intros [->|Hin]%elem_of_cons; cbn [foldr]; [lia|].
    specialize (IH Hin). lia.
Qed.

(** The pool when [result.wait(timeout)] has returned: it is closed, and
    the clock is at the time at which the result is available, or at the
    deadline when that comes first. *)
Lemma parse_live_start_run tm pageids timeout :
  Pool.run tm (parse_live_start pageids timeout) Pool.init
  = Some {| Pool.status_of := Pool.CLOSE;
            Pool.now := Z.max 0 (Z.min (Pool.available tm) (Z.max 0 timeout));
            Pool.stopped := None; Pool.joined := false; Pool.log := [] |}.
Proof.
  unfold parse_live_start. cbn. unfold Pool.ready, Pool.horizon. cbn.
  do 2 f_equal. destruct (Z.leb_spec (Pool.available tm) 0); lia.
Qed.


(** ** The statements on the small wiki *)


Lemma query_pageids_omits_witness :
  query_pageids Scenario.queryGen Scenario.batch
  = query_responses
      (gen_app Stop
         (Yield
            (answer
               ([(lit "101",
                  Scenario.page_of (lit "Page one") (lit "X needs citation"));
                 (lit "102",
                  Scenario.page_of (lit "Page two") (lit "all sourced"))]
                ++ []))
            Stop)).
Proof.
  destruct (query_pageids_omits Scenario.queryGen Scenario.batch) as [Hskip _].
  apply (Hskip Stop Stop _ [] (lit "103")
           {| title := None; revisions := None |}).
  - vm_compute. reflexivity.
  - left. reflexivity.
Defined.



Lemma work_writes_page_witness :
  Db.articles (chdb Scenario.after_batch) !! lit "101"
  = Some (lit "101",
          WIKIPEDIA_WIKI_URL Scenario.wikipedia_domain
            ++ replace (lit " ") (lit "_") (lit "Page one"),
          lit "Page one").
Proof.
  destruct (work_writes_page Scenario.mkid Scenario.wikipedia_domain
              Scenario.snippet_min_size Scenario.snippet_max_size
              Scenario.extract_snippets Scenario.queryGen
              Scenario.batch (initializer Db.empty) Scenario.after_batch
              (lit "101") (lit "Page one") (lit "X needs citation")
              [(lit "See also", [lit "X needs citation"])])
    as (evs & _ & _ & _ & _ & _ & Harticle & _).
  - vm_compute. reflexivity.
  - vm_compute. apply list_elem_of_here.
  - vm_compute. reflexivity.
  - discriminate.
  - exact Harticle.
Defined.

Lemma work_drops_empty_page_witness :
  Db.articles (chdb Scenario.after_batch) !! lit "102"
  = Db.articles (chdb (initializer Db.empty)) !! lit "102".
Proof.
  destruct (work_drops_empty_page Scenario.mkid Scenario.wikipedia_domain
              Scenario.snippet_min_size Scenario.snippet_max_size
              Scenario.extract_snippets Scenario.queryGen
              Scenario.batch (initializer Db.empty) (Ok ())
              Scenario.after_batch (lit "102"))
    as (_ & evs & _ & _ & _ & Harticle).
  - vm_compute. reflexivity.
  - intros t w Hin. vm_compute in Hin.
    apply elem_of_cons in Hin as [Heq|Hin]; [discriminate Heq|].
    apply elem_of_cons in Hin as [Heq|Hin];
      [|by apply elem_of_nil in Hin].
    injection Heq as -> ->. exists []. split; vm_compute; reflexivity.
  - exact Harticle.
Defined.

Lemma work_builds_before_it_writes_witness :
  chdb (Scenario.work Scenario.batch_broken (initializer Db.empty)).2
  = chdb (initializer Db.empty).
Proof.
  destruct (work_builds_before_it_writes Scenario.mkid
              Scenario.wikipedia_domain Scenario.snippet_min_size
              Scenario.snippet_max_size Scenario.extract_snippets
              Scenario.queryGen Scenario.batch_broken (initializer Db.empty))
    as [_ Hraise].
  destruct Hraise as (x & st' & evs & _ & _ & _ & _ & Hdb & _).
  - right. exists (lit "104"), (lit "Page four"), (lit "broken"), ParserError.
    split; [|vm_compute; reflexivity].
    vm_compute. apply list_elem_of_further, list_elem_of_here.
  - exact Hdb.
Defined.

Lemma insert_conflicts_witness :
  ∃ st1, Scenario.work_body Scenario.batch Scenario.after_batch
         = (Raise IntegrityError, st1).
Proof.
  destruct (insert_conflicts Scenario.mkid Scenario.wikipedia_domain
              Scenario.snippet_min_size Scenario.snippet_max_size
              Scenario.extract_snippets Scenario.queryGen
              Scenario.batch Scenario.after_batch
              (lit "101") (lit "Page one") (lit "X needs citation")
              [(lit "See also", [lit "X needs citation"])])
    as (_ & _ & st1 & Hbody & _).
  - vm_compute. reflexivity.
  - intros pid t0 w0 Hin. vm_compute in Hin.
    apply elem_of_cons in Hin as [Heq|Hin].
    { injection Heq as -> -> ->. eexists. vm_compute. reflexivity. }
    apply elem_of_cons in Hin as [Heq|Hin];
      [|by apply elem_of_nil in Hin].
    injection Heq as -> -> ->. eexists. vm_compute. reflexivity.
  - vm_compute. apply list_elem_of_here.
  - vm_compute. reflexivity.
  - discriminate.
  - vm_compute. eexists. reflexivity.
  - exists st1. exact Hbody.
Defined.



Lemma work_writes_page_counterexample :
  (lit "101", lit "Page one", lit "X needs citation")
    ∈ yielded (query_pageids Scenario.queryGen Scenario.batch_broken)
  ∧ Scenario.extract_snippets (lit "X needs citation")
      Scenario.snippet_min_size Scenario.snippet_max_size
    = Ok [(lit "See also", [lit "X needs citation"])]
  ∧ fragments [(lit "See also", [lit "X needs citation"])]
    = [lit "X needs citation"]
  ∧ Scenario.work_body Scenario.batch_broken (initializer Db.empty)
    = (Raise ParserError,
       add_events [Fetched (lit "101"); Extract (lit "X needs citation");
                   Fetched (lit "104"); Extract (lit "broken")]
                  (initializer Db.empty))
  ∧ article_rows
      (trace (Scenario.work Scenario.batch_broken (initializer Db.empty)).2)
    = []
  ∧ snippet_rows
      (trace (Scenario.work Scenario.batch_broken (initializer Db.empty)).2)
    = []
  ∧ chdb (Scenario.work Scenario.batch_broken (initializer Db.empty)).2
    = Db.empty.
Proof.
  split; [vm_compute; apply list_elem_of_here|].
  repeat split; vm_compute; reflexivity.
Qed.

(** * More properties of the code *)

(** ** The anchor encoder *)

Lemma anchor_byte_safe (b : Z) :
  is_byte b → Forall (λ c, anchor_safe c = true) (anchor_byte b).
Proof.
  intros Hb. destruct (byte_digits b Hb) as [Hhi Hlo].
  unfold anchor_byte, anchor_safe.
  destruct (Z.eqb_spec b 58) as [->|Hne]; [by repeat constructor|].
  destruct ((b <? 128) && always_safe b) eqn:Hsafe.
  - apply andb_true_iff in Hsafe as [_ Hsafe].
    apply Forall_cons_2; [by rewrite Hsafe|apply Forall_nil_2].
  - assert (Hhex : ∀ n, 0 <= n < 16 → always_safe (hex_digit n) = true).
    { intros n Hn. pose proof (hex_digit_range n Hn) as Hr.
      unfold always_safe.
      destruct Hr as [Hr|Hr].
      - replace ((48 <=? hex_digit n) && (hex_digit n <=? 57)) with true;
          [by rewrite !orb_true_r|].
        symmetry. apply andb_true_iff. split; apply Z.leb_le; lia.
      - replace ((65 <=? hex_digit n) && (hex_digit n <=? 90)) with true;
          [done|].
        symmetry. apply andb_true_iff. split; apply Z.leb_le; lia. }
    repeat apply Forall_cons_2; [done| | |apply Forall_nil_2];
      rewrite Hhex; done.
Qed.

Lemma anchor_char_safe (c : Z) :
  code_point c → Forall (λ c', anchor_safe c' = true) (anchor_char c).
Proof.
  intros Hc. unfold anchor_char. destruct (c =? 32); [by repeat constructor|].
  pose proof (utf8_char_bytes c Hc) as Hbytes.
  induction Hbytes as [|b bs Hb _ IH]; [constructor|].
  cbn [flat_map]. apply Forall_app. split; [by apply anchor_byte_safe|done].
Qed.

Lemma anchor_char_fixed (c : Z) : anchor_safe c = true → anchor_char c = [c].
Proof.
  unfold anchor_safe, anchor_char. intros Hc.
  assert (Hrange : 45 <= c <= 122).
  { apply orb_true_iff in Hc as [Hc|Hc]; [|apply Z.eqb_eq in Hc; lia].
    unfold always_safe in Hc.
    repeat (apply orb_true_iff in Hc as [Hc|Hc]);
      try (apply andb_true_iff in Hc as [H1 H2];
           apply Z.leb_le in H1, H2; lia);
      apply Z.eqb_eq in Hc; lia. }
  destruct (Z.eqb_spec c 32); [lia|].
  unfold utf8_char. destruct (Z.ltb_spec c 128); [|lia].
  cbn [flat_map]. rewrite app_nil_r. unfold anchor_byte.
  destruct (Z.eqb_spec c 58) as [Heq|Hne]; [by rewrite Heq|].
  apply orb_true_iff in Hc as [Hc|Hc]; [|discriminate Hc].
  rewrite Hc. destruct (Z.ltb_spec c 128); [done|lia].
Qed.

Lemma anchor_safe_code_point (c : Z) : anchor_safe c = true → code_point c.
Proof.
  intros Hc. pose proof (anchor_char_fixed c Hc) as Hfix.
  unfold anchor_safe in Hc. unfold code_point.
  apply orb_true_iff in Hc as [Hc|Hc]; [|apply Z.eqb_eq in Hc; lia].
  unfold always_safe in Hc.
  repeat (apply orb_true_iff in Hc as [Hc|Hc]);
    try (apply andb_true_iff in Hc as [H1 H2];
         apply Z.leb_le in H1, H2; lia);
    apply Z.eqb_eq in Hc; lia.
Qed.

(** X1. An anchor is made of letters, digits, [_], [.], [-] and [:]
    only. *)
Theorem anchor_alphabet (section : ustring) :
  Forall code_point section →
  Forall (λ c, anchor_safe c = true) (section_name_to_anchor section).
Proof.
  intros Hs. rewrite anchor_by_char by done.
  induction Hs as [|c s Hc _ IH]; [constructor|].
  cbn [flat_map]. apply Forall_app. split; [by apply anchor_char_safe|done].
Qed.

Lemma anchor_fixed (s : ustring) :
  Forall (λ c, anchor_safe c = true) s → section_name_to_anchor s = s.
Proof.
  intros Hs. rewrite anchor_by_char
    by (eapply Forall_impl; [exact Hs|apply anchor_safe_code_point]).
  induction Hs as [|c s Hc _ IH]; [done|].
  cbn [flat_map]. by rewrite anchor_char_fixed, IH.
Qed.

(** X2. The encoder changes nothing in a string that is an anchor
    already: encoding twice is encoding once. *)
Theorem anchor_idempotent (section : ustring) :
  Forall code_point section →
  section_name_to_anchor (section_name_to_anchor section)
  = section_name_to_anchor section.
Proof. intros Hs. by apply anchor_fixed, anchor_alphabet. Qed.

(** X3. The anchor of two strings one after the other is the anchor of
    the first followed by the anchor of the second, and a title with
    spaces has the anchor of the title with underscores in their place. *)
Theorem anchor_app (s1 s2 : ustring) :
  Forall code_point s1 → Forall code_point s2 →
  section_name_to_anchor (s1 ++ s2)
  = section_name_to_anchor s1 ++ section_name_to_anchor s2
  ∧ section_name_to_anchor (replace (lit " ") (lit "_") s1)
    = section_name_to_anchor s1.
Proof.
  intros H1 H2. split.
  - rewrite !anchor_by_char; [|done|done|by apply Forall_app].
    apply flat_map_app.
  - rewrite !anchor_by_char; [|done|by apply underscore_code_points].
    change (lit " ") with [32]. change (lit "_") with [95].
    rewrite replace_char_map. clear. induction s1 as [|c s IH]; [done|].
    cbn [map flat_map]. rewrite IH. f_equal.
    destruct (Z.eqb_spec 32 c) as [<-|Hne]; reflexivity.
Qed.

Lemma utf8_char_length (c : Z) : (1 ≤ length (utf8_char c) ≤ 4)%nat.
Proof.
  unfold utf8_char.
  destruct (c <? 128); [cbn; lia|]. destruct (c <? 2048); [cbn; lia|].
  destruct (c <? 65536); cbn; lia.
Qed.

Lemma anchor_byte_length (b : Z) : (1 ≤ length (anchor_byte b) ≤ 3)%nat.
Proof.
  unfold anchor_byte. destruct (b =? 58); [cbn; lia|].
  destruct ((b <? 128) && always_safe b); cbn; lia.
Qed.

Lemma flat_map_length_bounds {A B} (f : A → list B) (lo hi : nat) (l : list A) :
  (∀ a, lo ≤ length (f a) ≤ hi)%nat →
  (lo * length l ≤ length (flat_map f l) ≤ hi * length l)%nat.
Proof.
  intros Hf. induction l as [|a l IH]; [cbn; lia|].
  cbn [flat_map length]. rewrite length_app. specialize (Hf a). lia.
Qed.

Lemma anchor_char_length (c : Z) : (1 ≤ length (anchor_char c) ≤ 12)%nat.
Proof.
  unfold anchor_char. destruct (c =? 32); [cbn; lia|].
  pose proof (flat_map_length_bounds anchor_byte 1 3 (utf8_char c)
                anchor_byte_length).
  pose proof (utf8_char_length c). lia.
Qed.

(** X4. An anchor is at least as long as the title and at most twelve
    times as long; only the empty title has the empty anchor. *)
Theorem anchor_length (section : ustring) :
  Forall code_point section →
  (length section ≤ length (section_name_to_anchor section)
   ≤ 12 * length section)%nat
  ∧ (section_name_to_anchor section = [] ↔ section = []).
Proof.
  intros Hs. rewrite anchor_by_char by done.
  pose proof (flat_map_length_bounds anchor_char 1 12 section
                anchor_char_length) as Hlen.
  split; [lia|]. split.
  - intros Hnil. rewrite Hnil in Hlen. cbn in Hlen.
    destruct section; [done|cbn in Hlen; lia].
  - by intros ->.
Qed.

(** ** The fetch client *)

Lemma omap_entry_cons (entry : ustring * page) (pages : entries) :
  omap entry_tuple (entry :: pages)
  = match entry_tuple entry with
    | Some tuple => tuple :: omap entry_tuple pages
    | None => omap entry_tuple pages
    end.
Proof. reflexivity. Qed.

(** One step of the inner loop on an entry that can be read. *)
Lemma query_pages_cons_reads id p (pages : entries) later :
  entry_reads (id, p) →
  query_pages ((id, p) :: pages) later
  = match entry_tuple (id, p) with
    | Some tuple => Yield tuple (query_pages pages later)
    | None => query_pages pages later
    end.
Proof.
  unfold entry_reads, entry_tuple. cbn [query_pages fst snd].
  intros [Hp|[text Hp]]; rewrite Hp; [done|].
  destruct (title p); [|done]. by destruct text.
Qed.

Lemma query_pages_reads (pages : entries) later :
  Forall entry_reads pages →
  yielded (query_pages pages later) = omap entry_tuple pages ++ yielded later
  ∧ thrown (query_pages pages later) = thrown later.
Proof.
  induction 1 as [|[id p] pages Hp _ [IHy IHt]]; [done|].
  rewrite omap_entry_cons, query_pages_cons_reads by done.
  destruct (entry_tuple (id, p)); [|done].
  cbn [yielded thrown app]. by rewrite IHy.
Qed.

Lemma query_responses_reads (responses : gen response) :
  Forall response_reads (yielded responses) →
  yielded (query_responses responses)
  = omap entry_tuple (flat_map response_entries (yielded responses))
  ∧ thrown (query_responses responses) = thrown responses.
Proof.
  induction responses as [|r rest IH|x]; [done| |done].
  cbn [yielded flat_map query_responses thrown]. intros Hall.
  apply Forall_cons in Hall as [(items & Hr & Hitems) Hrest].
  destruct (IH Hrest) as [IHy IHt]. unfold response_entries at 1.
  rewrite Hr.
  destruct (query_pages_reads items (query_responses rest) Hitems) as [-> ->].
  by rewrite omap_app, IHy.
Qed.

(** X5. When every response of the remote query has its pages under
    ['query']['pages'] and the client can read every entry, it yields
    the tuples of the entries that have a title and a text that is not
    empty, all of them and in the order of the answer, and it ends as
    the remote query ends: normally, or with the exception of the
    query. *)
Theorem query_pageids_reads (queryGen : ustring → gen response)
    (pageids : list ustring) :
  Forall response_reads (yielded (queryGen (join (lit "|") pageids))) →
  yielded (query_pageids queryGen pageids)
  = omap entry_tuple
      (flat_map response_entries
         (yielded (queryGen (join (lit "|") pageids))))
  ∧ thrown (query_pageids queryGen pageids)
    = thrown (queryGen (join (lit "|") pageids)).
Proof. unfold query_pageids. apply query_responses_reads. Qed.

Lemma query_pages_raises (pre post : entries) id p t x later :
  Forall entry_reads pre → title p = Some t → page_text p = Raise x →
  yielded (query_pages (pre ++ (id, p) :: post) later) = omap entry_tuple pre
  ∧ thrown (query_pages (pre ++ (id, p) :: post) later) = Some x.
Proof.
  intros Hpre Ht Hx.
  induction Hpre as [|[id' p'] pre Hp _ [IHy IHt]].
  - cbn [app query_pages]. by rewrite Ht, Hx.
  - cbn [app]. rewrite omap_entry_cons, query_pages_cons_reads by done.
    destruct (entry_tuple (id', p')); [|done].
    cbn [yielded thrown]. by rewrite IHy.
Qed.

Lemma query_responses_app_reads (g1 g2 : gen response) :
  thrown g1 = None →
  Forall response_reads (yielded g1) →
  yielded (query_responses (gen_app g1 g2))
  = omap entry_tuple (flat_map response_entries (yielded g1))
    ++ yielded (query_responses g2)
  ∧ thrown (query_responses (gen_app g1 g2)) = thrown (query_responses g2).
Proof.
  induction g1 as [|r rest IH|y]; cbn [gen_app yielded flat_map thrown];
    [done| |done].
  intros Hthrown Hall.
  apply Forall_cons in Hall as [(items & Hr & Hitems) Hrest].
  destruct (IH Hthrown Hrest) as [IHy IHt].
  cbn [query_responses]. unfold response_entries at 1. rewrite Hr.
  destruct (query_pages_reads items (query_responses (gen_app rest g2)) Hitems)
    as [-> ->].
  by rewrite omap_app, IHy, app_assoc.
Qed.

(** X6. An entry that has a title and no text to look up, because
    ['revisions'] or ['*'] is missing or the list of revisions is empty,
    stops the client with the exception of the lookup: the tuples of the
    entries before it have been yielded, and no entry after it is read,
    in this answer or a later one. *)
Theorem query_pageids_stops (queryGen : ustring → gen response)
    (pageids : list ustring) g1 g2 pre post id p t x :
  queryGen (join (lit "|") pageids)
    = gen_app g1 (Yield (answer (pre ++ (id, p) :: post)) g2) →
  thrown g1 = None →
  Forall response_reads (yielded g1) →
  Forall entry_reads pre →
  title p = Some t →
  page_text p = Raise x →
  yielded (query_pageids queryGen pageids)
  = omap entry_tuple (flat_map response_entries (yielded g1) ++ pre)
  ∧ thrown (query_pageids queryGen pageids) = Some x
  ∧ (x = KeyError ∨ x = IndexError).
Proof.
  unfold query_pageids. intros -> Hg1 Hall Hpre Ht Hx.
  destruct (query_responses_app_reads g1
              (Yield (answer (pre ++ (id, p) :: post)) g2) Hg1 Hall)
    as [-> ->].
  rewrite query_responses_answer.
  destruct (query_pages_raises pre post id p t x (query_responses g2)
              Hpre Ht Hx) as [-> ->].
  split; [by rewrite omap_app|]. split; [done|].
  unfold page_text in Hx. destruct (revisions p) as [[|r rs]|].
  - injection Hx as <-. by right.
  - destruct (star r); [done|]. injection Hx as <-. by left.
  - injection Hx as <-. by left.
Qed.

(** X21. A response without ['query'], or without ['pages'] under it,
    stops the client with [KeyError]: the tuples of the responses before
    it have been yielded, and no later response is read. *)
Theorem query_pageids_no_pages (queryGen : ustring → gen response)
    (pageids : list ustring) g1 g2 r :
  queryGen (join (lit "|") pageids) = gen_app g1 (Yield r g2) →
  thrown g1 = None →
  Forall response_reads (yielded g1) →
  query_of r = None ∨ (∃ q, query_of r = Some q ∧ pages_of q = None) →
  yielded (query_pageids queryGen pageids)
  = omap entry_tuple (flat_map response_entries (yielded g1))
  ∧ thrown (query_pageids queryGen pageids) = Some KeyError.
Proof.
  unfold query_pageids. intros -> Hg1 Hall Hr.
  destruct (query_responses_app_reads g1 (Yield r g2) Hg1 Hall) as [-> ->].
  assert (Hitems : response_items r = Raise KeyError).
  { unfold response_items. destruct Hr as [->|(q & -> & ->)]; done. }
  cbn [query_responses]. rewrite Hitems. cbn. by rewrite app_nil_r.
Qed.

(** ** The adapter of wikitools to requests *)

(** X13. [open] asks the session at most once. It asks nothing when the
    request has no [Content-length] header or no data, and raises;
    otherwise it asks once, for the URL of the request followed by [?]
    and the data, with the headers of the request except
    [Content-length]. What it returns then has the text and the status of
    the answer, and the URL and the headers of the request itself, with
    [Content-length]. *)
Theorem adapter_open_once session_get (request : Adapter.Request) :
  (Adapter.headers request !! lit "Content-length" = None
   ∨ Adapter.get_data request = None ↔
   (Adapter.open session_get request).2 = [])
  ∧ (∀ target hs, (target, hs) ∈ (Adapter.open session_get request).2 →
       (Adapter.open session_get request).2 = [(target, hs)]
       ∧ (∃ data, Adapter.get_data request = Some data
                  ∧ target = Adapter.get_full_url request ++ lit "?" ++ data)
       ∧ hs !! lit "Content-length" = None
       ∧ ∀ k, k ≠ lit "Content-length" →
           hs !! k = Adapter.headers request !! k)
  ∧ (∀ reply, (Adapter.open session_get request).1 = inr reply →
       Adapter.info reply = Adapter.headers request
       ∧ is_Some (Adapter.info reply !! lit "Content-length")
       ∧ Adapter.geturl reply = Adapter.get_full_url request
       ∧ ∃ target hs response,
           (Adapter.open session_get request).2 = [(target, hs)]
           ∧ session_get target hs = Some response
           ∧ Adapter.fp reply = Adapter.text response
           ∧ Adapter.getcode reply = Adapter.status_code response).
Proof.
  unfold Adapter.open.
  destruct (Adapter.headers request !! lit "Content-length") as [len|] eqn:Hlen.
  2: { split; [|split].
       - split; [done|]. intros _. by left.
       - intros ?? Hin. by apply elem_of_nil in Hin.
       - by intros ? [=]. }
  destruct (Adapter.get_data request) as [data|] eqn:Hdata.
  2: { split; [|split].
       - split; [done|]. intros _. by right.
       - intros ?? Hin. by apply elem_of_nil in Hin.
       - by intros ? [=]. }
  assert (Hsent : ∀ (target hs : _) (l : list Adapter.sent),
            l = [(Adapter.get_full_url request ++ lit "?" ++ data,
                  delete (lit "Content-length") (Adapter.headers request))] →
            (target, hs) ∈ l →
            l = [(target, hs)]
            ∧ (∃ data0, Some data = Some data0
                 ∧ target = Adapter.get_full_url request ++ lit "?" ++ data0)
            ∧ hs !! lit "Content-length" = None
            ∧ ∀ k, k ≠ lit "Content-length" →
                hs !! k = Adapter.headers request !! k).
  { intros target hs l -> Hin. apply list_elem_of_singleton in Hin.
    injection Hin as -> ->. split; [done|]. split; [by exists data|].
    split; [apply lookup_delete_eq|].
    intros k Hk. by apply lookup_delete_ne. }
  destruct (session_get _ _) as [response|] eqn:Hget; cbn [fst snd].
  - split; [|split].
    + split; [by intros [|]|done].
    + intros target hs. by apply Hsent.
    + intros reply [= <-]. cbn. split; [done|]. split; [by eexists|].
      split; [done|]. by eexists _, _, response.
  - split; [|split].
    + split; [by intros [|]|done].
    + intros target hs. by apply Hsent.
    + by intros reply [=].
Qed.

(** ** The scheduler *)

Lemma range_go_lookup fuel i stop step k j :
  range_go fuel i stop step !! k = Some j →
  j = (i + k * step)%nat ∧ (j < stop)%nat.
Proof.
  revert i k. induction fuel as [|fuel IH]; intros i k; cbn [range_go];
    [done|].
  destruct (Nat.ltb_spec i stop) as [Hlt|Hge]; [|done].
  destruct k as [|k]; cbn [lookup list_lookup].
  - intros [= <-]. lia.
  - intros Hk. apply IH in Hk. lia.
Qed.

Lemma range_go_length fuel i stop step :
  (0 < step)%nat → (stop ≤ i + fuel)%nat →
  (stop ≤ i + length (range_go fuel i stop step) * step)%nat
  ∧ (0 < length (range_go fuel i stop step) →
     i + (length (range_go fuel i stop step) - 1) * step < stop)%nat.
Proof.
  intros Hstep. revert i. induction fuel as [|fuel IH]; intros i Hfuel.
  - cbn. lia.
  - cbn [range_go]. destruct (Nat.ltb_spec i stop) as [Hlt|Hge];
      [|cbn; lia].
    cbn [length]. destruct (IH (i + step)%nat) as [IH1 IH2]; [lia|].
    split; [lia|]. intros _.
    destruct (length (range_go fuel (i + step) stop step)) as [|m] eqn:Hm.
    + cbn. lia.
    + specialize (IH2 ltac:(lia)). cbn in *. lia.
Qed.

(** X14. The batch at position [i] is the 32 page ids from position
    [32 * i] of the enumeration of the set, or those that are left. No
    batch is empty, every batch but the last has 32 page ids, and the
    number of batches is the size of the set divided by 32, rounded
    up. *)
Theorem make_tasks_shape (pageids : gset ustring) (i : nat) (b : list ustring) :
  make_tasks pageids !! i = Some b →
  b = take 32 (drop (32 * i)%nat (elements pageids))
  ∧ (0 < length b ≤ 32)%nat
  ∧ ((S i < length (make_tasks pageids))%nat → length b = 32%nat)
  ∧ (size pageids ≤ 32 * length (make_tasks pageids) < size pageids + 32)%nat.
Proof.
  unfold make_tasks, range, size, set_size, compose. cbn beta.
  set (l := elements pageids). rewrite length_map.
  destruct (range_go_length (length l) 0 (length l) batch_size)
    as [Hlen1 Hlen2]; [unfold batch_size; lia|lia|].
  unfold batch_size in *. rewrite list_lookup_fmap.
  destruct (range_go (length l) 0 (length l) 32 !! i) as [j|] eqn:Hj; [|done].
  intros [= <-]. pose proof (lookup_lt_Some _ _ _ Hj) as Hi.
  apply range_go_lookup in Hj as [-> Hjlt].
  unfold slice. replace (0 + i * 32 + 32 - (0 + i * 32))%nat with 32%nat by lia.
  replace (0 + i * 32)%nat with (32 * i)%nat in * by lia.
  split; [done|]. rewrite length_take, length_drop.
  split; [lia|]. split; [|lia].
  intros Hnext. specialize (Hlen2 ltac:(lia)). lia.
Qed.

(** ** The file of page ids *)

Lemma lstrip_spec (s : ustring) :
  ∃ a, s = a ++ lstrip s
       ∧ Forall (λ c, is_space c = true) a
       ∧ ∀ c, head (lstrip s) = Some c → is_space c = false.
Proof.
  induction s as [|c s (a & Hs & Ha & Hhead)]; [by exists []|].
  cbn [lstrip]. destruct (is_space c) eqn:Hc.
  - exists (c :: a). split; [by rewrite Hs at 1|]. split; [|done].
    by apply Forall_cons_2.
  - exists []. split; [done|]. split; [constructor|]. by intros ? [= <-].
Qed.

Lemma lstrip_fixed (s : ustring) :
  (∀ c, head s = Some c → is_space c = false) → lstrip s = s.
Proof. destruct s as [|c s]; [done|]. intros H. cbn. by rewrite (H c). Qed.

Lemma rstrip_spec (s : ustring) :
  ∃ b, s = rstrip s ++ b
       ∧ Forall (λ c, is_space c = true) b
       ∧ ∀ c, last (rstrip s) = Some c → is_space c = false.
Proof.
  unfold rstrip. destruct (lstrip_spec (reverse s)) as (a & Hs & Ha & Hhead).
  exists (reverse a). split; [|split].
  - rewrite <- reverse_app, <- Hs. by rewrite reverse_involutive.
  - by apply Forall_reverse.
  - intros c. rewrite last_reverse. apply Hhead.
Qed.

Lemma rstrip_fixed (s : ustring) :
  (∀ c, last s = Some c → is_space c = false) → rstrip s = s.
Proof.
  intros H. unfold rstrip. rewrite lstrip_fixed.
  - apply reverse_involutive.
  - intros c. rewrite head_reverse. apply H.
Qed.

(** [strip] takes spaces away at both ends and nothing else. *)
Lemma strip_spec (s : ustring) :
  ∃ a b, s = a ++ strip s ++ b
         ∧ Forall (λ c, is_space c = true) a
         ∧ Forall (λ c, is_space c = true) b
         ∧ (∀ c, head (strip s) = Some c → is_space c = false)
         ∧ (∀ c, last (strip s) = Some c → is_space c = false).
Proof.
  unfold strip. destruct (lstrip_spec s) as (a & Hs & Ha & Hhead).
  destruct (rstrip_spec (lstrip s)) as (b & Hl & Hb & Hlast).
  exists a, b. split; [by rewrite <- Hl|]. split; [done|]. split; [done|].
  split; [|done]. intros c Hc. apply Hhead. rewrite Hl.
  apply head_app_Some. by left.
Qed.

Lemma strip_spaces (s : ustring) :
  Forall (λ c, is_space c = true) s → strip s = [].
Proof.
  intros Hs. unfold strip.
  assert (lstrip s = []) as ->; [|done].
  induction Hs as [|c s Hc _ IH]; [done|]. cbn. by rewrite Hc.
Qed.

Lemma file_lines_cons c content :
  file_lines (c :: content)
  = if c =? 10 then [c] :: file_lines content
    else match file_lines content with
         | [] => [[c]]
         | line :: lines => (c :: line) :: lines
         end.
Proof. reflexivity. Qed.

(** Every line is made of characters other than the newline, followed by
    one newline or, for the last line, possibly by none. *)
Lemma file_lines_line (content line : ustring) :
  line ∈ file_lines content →
  ∃ body, (10 ∉ body) ∧ (line = body ++ [10] ∨ (line = body ∧ body ≠ [])).
Proof.
  revert line. induction content as [|c content IH]; intros line.
  - intros Hin. by apply elem_of_nil in Hin.
  - rewrite file_lines_cons. destruct (Z.eqb_spec c 10) as [->|Hne].
    + intros Hin. apply elem_of_cons in Hin as [->|Hin]; [|by apply IH].
      exists []. split; [apply not_elem_of_nil|by left].
    + destruct (file_lines content) as [|first lines].
      * intros Hin. apply list_elem_of_singleton in Hin as ->.
        exists [c]. split; [|by right].
        intros Hin. apply list_elem_of_singleton in Hin. congruence.
      * intros Hin. apply elem_of_cons in Hin as [->|Hin].
        -- destruct (IH first) as (body & Hbody & Hline); [by left|].
           exists (c :: body). split.
           ++ intros Hin. apply elem_of_cons in Hin as [Heq|Hin]; [congruence|done].
           ++ destruct Hline as [->|[-> _]]; [by left|by right].
        -- apply IH. by right.
Qed.

Lemma file_lines_concat (content : ustring) :
  concat (file_lines content) = content.
Proof.
  induction content as [|c content IH]; [done|].
  rewrite file_lines_cons. destruct (c =? 10).
  - cbn. by rewrite IH.
  - destruct (file_lines content) as [|first lines]; cbn in *; by rewrite <- IH.
Qed.

Lemma size_list_to_set_le (l : list ustring) :
  (size (list_to_set l : gset ustring) ≤ length l)%nat.
Proof.
  induction l as [|x l IH]; [by rewrite list_to_set_nil, size_empty|].
  rewrite list_to_set_cons, size_union_alt, size_singleton. cbn [length].
  assert (Hle : (size (list_to_set l ∖ {[x]} : gset ustring)
                  ≤ size (list_to_set l : gset ustring))%nat).
  { apply subseteq_size. intros y Hy.
    by apply elem_of_difference in Hy as [? _]. }
  lia.
Qed.

(** X15. The page ids read from the file are the lines without the
    spaces at their ends: a page id begins and ends with a character
    that is not a space, has no newline, and is a piece of its line with
    only spaces left out before and after. There are at most as many
    page ids as lines, and no character of the file is lost between the
    lines. *)
Theorem read_pageids_trimmed (content id : ustring) :
  id ∈ read_pageids content →
  (∃ line a b, line ∈ file_lines content ∧ id = strip line
               ∧ line = a ++ id ++ b
               ∧ Forall (λ c, is_space c = true) a
               ∧ Forall (λ c, is_space c = true) b)
  ∧ (∀ c, head id = Some c → is_space c = false)
  ∧ (∀ c, last id = Some c → is_space c = false)
  ∧ (10 ∉ id)
  ∧ (size (read_pageids content) ≤ length (file_lines content))%nat
  ∧ concat (file_lines content) = content.
Proof.
  unfold read_pageids. intros Hid.
  apply elem_of_list_to_set, list_elem_of_fmap in Hid as (line & -> & Hline).
  destruct (strip_spec line) as (a & b & Hsplit & Ha & Hb & Hhead & Hlast).
  split; [by exists line, a, b|]. split; [done|]. split; [done|].
  split; [|split; [|apply file_lines_concat]].
  - intros Hin. apply list_elem_of_split in Hin as (u & v & Hid).
    destruct (file_lines_line _ _ Hline) as (body & Hbody & Hshape).
    destruct Hshape as [Hshape|[Hshape _]].
    + rewrite Hid in Hsplit.
      destruct (v ++ b) as [|c rest _] eqn:Hvb using rev_ind.
      * apply app_eq_nil in Hvb as [-> _].
        apply (eq_true_false_abs (is_space 10)); [done|].
        apply Hlast. rewrite Hid. apply last_snoc.
      * apply Hbody.
        assert (Heq : body ++ [10] = (a ++ u ++ 10 :: rest) ++ [c]).
        { rewrite <- Hshape, Hsplit. rewrite <- !app_assoc. cbn [app].
          by rewrite Hvb. }
        apply app_inj_tail in Heq as [-> _].
        apply elem_of_app. right. apply elem_of_app. right. by left.
    + apply Hbody. rewrite <- Hshape, Hsplit, Hid.
      apply elem_of_app. right. apply elem_of_app. left.
      apply elem_of_app. right. by left.
  - etransitivity; [apply size_list_to_set_le|]. by rewrite length_map.
Qed.

(** X16. A line of spaces only gives the empty page id, and the empty
    page id is put in a batch like any other. *)
Theorem read_pageids_blank_line (content line : ustring) :
  line ∈ file_lines content →
  Forall (λ c, is_space c = true) line →
  [] ∈ read_pageids content
  ∧ ∃ i b, make_tasks (read_pageids content) !! i = Some b ∧ [] ∈ b.
Proof.
  intros Hline Hspaces.
  assert (Hin : [] ∈ read_pageids content).
  { unfold read_pageids. apply elem_of_list_to_set, list_elem_of_fmap.
    exists line. split; [|done]. symmetry. by apply strip_spaces. }
  split; [done|].
  assert (Hc : [] ∈ concat (make_tasks (read_pageids content))).
  { rewrite concat_make_tasks. by apply elem_of_elements. }
  apply elem_of_concat in Hc as (b & Hb & Hin').
  apply list_elem_of_lookup in Hin' as [i Hi]. by exists i, b.
Qed.

(** X17. The batches that the script gives to the pool hold the lines of
    the file without the spaces at their ends, each of them once: a page
    id is in a batch exactly when it is such a line, and no page id is
    in the batches twice, also when the file has the line twice. *)
Theorem script_submits {T : Type} (content : ustring) (timeout : T)
    (ready : bool) :
  ∃ tasks,
    MapAsync tasks ∈ script content timeout ready
    ∧ (∀ t, MapAsync t ∈ script content timeout ready → t = tasks)
    ∧ NoDup (concat tasks)
    ∧ ∀ id, (∃ b, b ∈ tasks ∧ id ∈ b)
            ↔ ∃ line, line ∈ file_lines content ∧ id = strip line.
Proof.
  exists (make_tasks (read_pageids content)).
  unfold script. rewrite main_ends_with_join. split; [|split; [|split]].
  - do 3 apply list_elem_of_further. apply list_elem_of_here.
  - intros t Hin.
    repeat (apply elem_of_cons in Hin as [Heq|Hin];
            [first [discriminate Heq | by injection Heq]|]).
    apply elem_of_app in Hin as [Hin|Hin].
    + destruct ready; [by apply elem_of_nil in Hin|].
      repeat (apply elem_of_cons in Hin as [Heq|Hin]; [discriminate Heq|]).
      by apply elem_of_nil in Hin.
    + repeat (apply elem_of_cons in Hin as [Heq|Hin]; [discriminate Heq|]).
      by apply elem_of_nil in Hin.
  - rewrite concat_make_tasks. apply NoDup_elements.
  - intros id. split.
    + intros (b & Hb & Hid).
      assert (Hin : id ∈ concat (make_tasks (read_pageids content)))
        by (apply elem_of_concat; by exists b).
      rewrite concat_make_tasks in Hin. apply elem_of_elements in Hin.
      unfold read_pageids in Hin.
      apply elem_of_list_to_set, list_elem_of_fmap in Hin as (line & -> & Hl).
      by exists line.
    + intros (line & Hline & ->).
      assert (Hin : strip line ∈ concat (make_tasks (read_pageids content))).
      { rewrite concat_make_tasks. apply elem_of_elements.
        unfold read_pageids. apply elem_of_list_to_set, list_elem_of_fmap.
        by exists line. }
      apply elem_of_concat in Hin as (b & Hid & Hb). by exists b.
Qed.

(** ** The statements above on the small wiki *)

Lemma code_points_check (s : ustring) :
  forallb (λ c, (0 <=? c) && (c <? 1114112)) s = true → Forall code_point s.
Proof.
  intros H. apply Forall_forall. intros c Hc.
  rewrite forallb_forall in H. apply list_elem_of_In in Hc.
  specialize (H c Hc). apply andb_true_iff in H as [H1 H2].
  apply Z.leb_le in H1. apply Z.ltb_lt in H2. by split.
Qed.

Lemma anchor_alphabet_witness :
  Forall (λ c, anchor_safe c = true)
         (section_name_to_anchor (lit "Notes: 100% (a~b)" ++ [233; 8364])).
Proof.
  apply (anchor_alphabet (lit "Notes: 100% (a~b)" ++ [233; 8364])).
  apply code_points_check. vm_compute. reflexivity.
Defined.

Lemma anchor_idempotent_witness :
  section_name_to_anchor
    (section_name_to_anchor (lit "Notes: 100% (a~b)" ++ [233; 8364]))
  = section_name_to_anchor (lit "Notes: 100% (a~b)" ++ [233; 8364]).
Proof.
  apply (anchor_idempotent (lit "Notes: 100% (a~b)" ++ [233; 8364])).
  apply code_points_check. vm_compute. reflexivity.
Defined.

Lemma anchor_app_witness :
  section_name_to_anchor (lit "See also: 50%" ++ lit "3A of it")
  = section_name_to_anchor (lit "See also: 50%")
    ++ section_name_to_anchor (lit "3A of it").
Proof.
  destruct (anchor_app (lit "See also: 50%") (lit "3A of it")) as [Happ _].
  - apply code_points_check. vm_compute. reflexivity.
  - apply code_points_check. vm_compute. reflexivity.
  - exact Happ.
Defined.

Lemma anchor_length_witness :
  (length (lit "a b" ++ [8364%Z])
   ≤ length (section_name_to_anchor (lit "a b" ++ [8364%Z]))
   ≤ 12 * length (lit "a b" ++ [8364%Z]))%nat.
Proof.
  destruct (anchor_length (lit "a b" ++ [8364])) as [Hlen _].
  - apply code_points_check. vm_compute. reflexivity.
  - exact Hlen.
Defined.

Lemma query_pageids_reads_witness :
  yielded (query_pageids Scenario.queryGen Scenario.batch)
  = omap entry_tuple
      (flat_map response_entries
         (yielded (Scenario.queryGen (join (lit "|") Scenario.batch)))).
Proof.
  destruct (query_pageids_reads Scenario.queryGen Scenario.batch)
    as [Hyielded _].
  - let l := eval vm_compute in
      (yielded (Scenario.queryGen (join (lit "|") Scenario.batch)))
    in change (Forall response_reads l).
    apply Forall_cons_2; [|apply Forall_nil_2].
    eexists. split; [reflexivity|].
    apply Forall_cons_2; [right; eexists; reflexivity|].
    apply Forall_cons_2; [right; eexists; reflexivity|].
    apply Forall_cons_2; [left; reflexivity|]. apply Forall_nil_2.
  - exact Hyielded.
Defined.

Lemma query_pageids_stops_witness :
  yielded (query_pageids Scenario2.queryGen Scenario2.batch_partial)
  = omap entry_tuple
      (flat_map response_entries (yielded Stop)
       ++ [(lit "101",
            Scenario.page_of (lit "Page one") (lit "X needs citation"))])
  ∧ thrown (query_pageids Scenario2.queryGen Scenario2.batch_partial)
    = Some KeyError.
Proof.
  destruct (query_pageids_stops Scenario2.queryGen Scenario2.batch_partial
              Stop Stop
              [(lit "101",
                Scenario.page_of (lit "Page one") (lit "X needs citation"))]
              [(lit "102",
                Scenario.page_of (lit "Page two") (lit "all sourced"))]
              (lit "105")
              {| title := Some (lit "Page five"); revisions := None |}
              (lit "Page five") KeyError)
    as (Hyielded & Hthrown & _).
  - vm_compute. reflexivity.
  - reflexivity.
  - apply Forall_nil_2.
  - apply Forall_cons_2; [right; eexists; reflexivity|apply Forall_nil_2].
  - reflexivity.
  - reflexivity.
  - split; [exact Hyielded|exact Hthrown].
Defined.

Lemma query_pageids_no_pages_witness :
  yielded (query_pageids Scenario2.queryGen Scenario2.batch_no_pages)
  = omap entry_tuple
      (flat_map response_entries
         (yielded
            (Yield
               (answer
                  [(lit "101",
                    Scenario.page_of (lit "Page one")
                      (lit "X needs citation"))])
               Stop)))
  ∧ thrown (query_pageids Scenario2.queryGen Scenario2.batch_no_pages)
    = Some KeyError.
Proof.
  apply (query_pageids_no_pages Scenario2.queryGen Scenario2.batch_no_pages
           (Yield
              (answer
                 [(lit "101",
                   Scenario.page_of (lit "Page one") (lit "X needs citation"))])
              Stop)
           Stop {| query_of := None |}).
  - vm_compute. reflexivity.
  - reflexivity.
  - apply Forall_cons_2; [|apply Forall_nil_2].
    eexists. split; [reflexivity|].
    apply Forall_cons_2; [right; eexists; reflexivity|apply Forall_nil_2].
  - left. reflexivity.
Defined.

Lemma write_rows_stops_witness :
  write_rows ([Scenario2.row101] ++ Scenario2.row101 :: [])
             (initializer Db.empty)
  = (Raise IntegrityError,
     add_events [Execute (Db.InsertArticle (article Scenario2.row101))]
       (write_rows [Scenario2.row101] (initializer Db.empty)).2).
Proof.
  destruct (write_rows_stops [Scenario2.row101] Scenario2.row101 []
              (initializer Db.empty)
              (write_rows [Scenario2.row101] (initializer Db.empty)).2)
    as (Hstop & _).
  - vm_compute. reflexivity.
  - vm_compute. eexists. reflexivity.
  - exact Hstop.
Defined.

Lemma work_keeps_shape_witness :
  db_referential (chdb Scenario.after_batch).
Proof.
  destruct (work_keeps_shape Scenario.mkid Scenario.wikipedia_domain
              Scenario.snippet_min_size Scenario.snippet_max_size
              Scenario.extract_snippets Scenario.queryGen
              Scenario.batch (initializer Db.empty)) as [_ Href].
  - split; intros k r Hk; cbn in Hk; by rewrite lookup_empty in Hk.
  - intros k r Hk. cbn in Hk. by rewrite lookup_empty in Hk.
  - exact Href.
Defined.

Lemma work_again_fails_witness :
  ∃ st'' a,
    Scenario.work_body Scenario.batch Scenario.after_batch
    = (Raise IntegrityError, st'')
    ∧ chdb st'' = chdb Scenario.after_batch
    ∧ executed (drop (length (trace Scenario.after_batch)) (trace st''))
      = [Db.InsertArticle a].
Proof.
  apply (work_again_fails Scenario.mkid Scenario.wikipedia_domain
           Scenario.snippet_min_size Scenario.snippet_max_size
           Scenario.extract_snippets Scenario.queryGen
           Scenario.batch (initializer Db.empty) Scenario.after_batch
           (lit "101") (lit "Page one") (lit "X needs citation")
           [(lit "See also", [lit "X needs citation"])]).
  - vm_compute. reflexivity.
  - vm_compute. apply list_elem_of_here.
  - vm_compute. reflexivity.
  - discriminate.
Defined.

Lemma work_sends_fetched_witness :
  ∃ evs,
    trace Scenario.after_batch = trace (initializer Db.empty) ++ evs
    ∧ article_rows evs
      = fetched_articles Scenario.mkid Scenario.wikipedia_domain
          Scenario.snippet_min_size Scenario.snippet_max_size
          Scenario.extract_snippets
          (yielded (query_pageids Scenario.queryGen Scenario.batch))
    ∧ snippet_rows evs
      = fetched_snippets Scenario.mkid Scenario.snippet_min_size
          Scenario.snippet_max_size Scenario.extract_snippets
          (yielded (query_pageids Scenario.queryGen Scenario.batch)).
Proof.
  apply (work_sends_fetched Scenario.mkid Scenario.wikipedia_domain
           Scenario.snippet_min_size Scenario.snippet_max_size
           Scenario.extract_snippets Scenario.queryGen
           Scenario.batch (initializer Db.empty) Scenario.after_batch).
  vm_compute. reflexivity.
Defined.

Lemma worker_budget_spent_witness :
  ∃ x, @Raise (option unit) APIError = Raise x.
Proof.
  apply (worker_budget_spent Scenario.mkid Scenario.wikipedia_domain
           Scenario.snippet_min_size Scenario.snippet_max_size
           Scenario.extract_snippets Scenario.queryGen
           Db.empty Scenario2.nine 6%nat 8%nat
           (Raise APIError) (Raise APIError)).
  - lia.
  - vm_compute. reflexivity.
  - reflexivity.
  - vm_compute. reflexivity.
  - reflexivity.
Defined.

Lemma make_tasks_shape_witness :
  (0 < length (elements ({[lit "101"; lit "102"]} : gset ustring)) ≤ 32)%nat.
Proof.
  destruct (make_tasks_shape ({[lit "101"; lit "102"]} : gset ustring) 0%nat
              (elements ({[lit "101"; lit "102"]} : gset ustring)))
    as (_ & Hlen & _).
  - vm_compute. reflexivity.
  - exact Hlen.
Defined.

Lemma read_pageids_trimmed_witness :
  (10 ∉ lit "102")
  ∧ (size (read_pageids Scenario2.content)
     ≤ length (file_lines Scenario2.content))%nat.
Proof.
  destruct (read_pageids_trimmed Scenario2.content (lit "102"))
    as (_ & _ & _ & Hnewline & Hsize & _).
  - unfold read_pageids. apply elem_of_list_to_set.
    let l := eval vm_compute in (map strip (file_lines Scenario2.content))
    in change (map strip (file_lines Scenario2.content)) with l.
    apply list_elem_of_further, list_elem_of_here.
  - split; [exact Hnewline|exact Hsize].
Defined.

Lemma read_pageids_blank_line_witness :
  [] ∈ read_pageids Scenario2.content.
Proof.
  destruct (read_pageids_blank_line Scenario2.content [10]) as [Hempty _].
  - let l := eval vm_compute in (file_lines Scenario2.content)
    in change (file_lines Scenario2.content) with l.
    do 2 apply list_elem_of_further. apply list_elem_of_here.
  - apply Forall_cons_2; [reflexivity|apply Forall_nil_2].
  - exact Hempty.
Defined.

Lemma work_without_fragments_witness :
  ∃ evs,
    Scenario2.work Scenario2.batch_sourced (initializer Db.empty)
    = (Ok (Some ()), add_events evs (initializer Db.empty))
    ∧ executed evs = []
    ∧ length evs
      = (2 * length (yielded (query_pageids Scenario2.queryGen
                                Scenario2.batch_sourced)))%nat.
Proof.
  apply (work_without_fragments Scenario.mkid Scenario.wikipedia_domain
           Scenario.snippet_min_size Scenario.snippet_max_size
           Scenario.extract_snippets Scenario2.queryGen
           Scenario2.batch_sourced (initializer Db.empty)).
  - vm_compute. reflexivity.
  - intros pageid t w Hin. vm_compute in Hin.
    apply elem_of_cons in Hin as [Heq|Hin]; [|by apply elem_of_nil in Hin].
    injection Heq as -> -> ->. exists []. split; vm_compute; reflexivity.
Defined.

Lemma insert_ignore_first_wins_witness :
  ∃ db',
    Db.run (Db.InsertIgnoreSnippets
              ([] ++ Scenario2.snippet101_again :: snippets Scenario2.row101))
           Db.empty
    = Ok db'
    ∧ Db.snippets db' !! Db.snippet_key Scenario2.snippet101_again
      = Some Scenario2.snippet101_again.
Proof.
  apply (insert_ignore_first_wins [] (snippets Scenario2.row101)
           Scenario2.snippet101_again Db.empty).
  - cbn. apply lookup_empty.
  - apply Forall_nil_2.
Defined.

Lemma work_adds_articles_witness :
  size (Db.articles (chdb Scenario.after_batch))
  = (size (Db.articles (chdb (initializer Db.empty)))
     + length (fetched_articles Scenario.mkid Scenario.wikipedia_domain
                 Scenario.snippet_min_size Scenario.snippet_max_size
                 Scenario.extract_snippets
                 (yielded (query_pageids Scenario.queryGen Scenario.batch))))%nat.
Proof.
  destruct (work_adds_articles Scenario.mkid Scenario.wikipedia_domain
              Scenario.snippet_min_size Scenario.snippet_max_size
              Scenario.extract_snippets Scenario.queryGen
              Scenario.batch (initializer Db.empty) Scenario.after_batch)
    as [Harticles _].
  - vm_compute. reflexivity.
  - exact Harticles.
Defined.
